(** * transcribe-videos: speaker alignment and transcript rendering

    A shallow embedding of [src/alignment.py] and [src/output_utils.py].

    Time stamps are Python floats, that is IEEE 754 binary64 values; they are
    modelled by Rocq's primitive [float], which is the same format with the
    same rounding, so every arithmetic step and comparison below is the one
    the interpreter performs.  Python strings are modelled by [string]; a
    character stands for a code point below 256.  Python integers are [Z]. *)

From Stdlib Require Import ZArith List String Ascii Bool Lia Floats.
From Stdlib Require Import Permutation Sorted DecimalString DecimalPos.
Import ListNotations.

Set Warnings "-inexact-float".

(** ** Python strings *)

Module pystr.

(** [str.isspace] on one character (code points below 256). *)
Definition isspace (c : ascii) : bool :=
  let n := N_of_ascii c in
  (((9 <=? n) && (n <=? 13)) || ((28 <=? n) && (n <=? 32))
   || (n =? 133) || (n =? 160))%N.

Fixpoint lstrip (s : string) : string :=
  match s with
  | EmptyString => EmptyString
  | String c s' => if isspace c then lstrip s' else s
  end.

Fixpoint rstrip (s : string) : string :=
  match s with
  | EmptyString => EmptyString
  | String c s' =>
      match rstrip s' with
      | EmptyString => if isspace c then EmptyString else String c EmptyString
      | r => String c r
      end
  end.

(** [s.strip()] *)
Definition strip (s : string) : string := rstrip (lstrip s).

(** Truth value of a string: [if s:] *)
Definition truthy (s : string) : bool :=
  match s with EmptyString => false | String _ _ => true end.

(** [s.split()]: the maximal runs of non-whitespace characters.  [cur] is the
    run read so far. *)
Fixpoint split_from (cur s : string) : list string :=
  match s with
  | EmptyString => if truthy cur then [cur] else []
  | String c s' =>
      if isspace c
      then (if truthy cur then cur :: split_from EmptyString s'
            else split_from EmptyString s')
      else split_from (cur ++ String c EmptyString) s'
  end.

Definition split (s : string) : list string := split_from EmptyString s.

(** [sep.join(parts)] *)
Definition join (sep : string) (parts : list string) : string :=
  String.concat sep parts.

(** [len(s)] *)
Definition len (s : string) : Z := Z.of_nat (String.length s).

End pystr.

(** ** Python floats *)

Module pyfloat.

(** [int(x)] for a float: truncation toward zero.  [int] raises on NaN and
    on the infinities; the callers below test for them first, and the model
    returns 0 there. *)
Definition trunc (x : float) : Z :=
  match Prim2SF x with
  | S754_finite s m e =>
      let a := Z.shiftl (Z.pos m) e in if s then (- a)%Z else a
  | _ => 0%Z
  end.

(** [float(n)] for an integer: the nearest binary64 value, ties to even. *)
Definition of_int (n : Z) : float :=
  SF2Prim (binary_normalize prec emax n 0 false).

(** [float(n)] raises OverflowError when the nearest value is not finite. *)
Definition int_fits (n : Z) : bool :=
  (Z.abs n <? 2 ^ 1024 - 2 ^ 970)%Z.

End pyfloat.

(** ** alignment.py *)

Module Word.
(** A word object of the transcription producer: attributes [start], [end]
    and [word]. *)
Record t := mk { start : float; end_ : float; word : string }.
End Word.

Module Segment.
Record t := mk { words : list Word.t }.
End Segment.

Module Turn.
(** A speaker turn: a dict with the keys [start], [end] and [speaker]. *)
Record t := mk { start : float; end_ : float; speaker : string }.
End Turn.

Module WordInfo.
(** The dict built per word; the key [speaker] is absent until
    [_find_speaker_for_word] sets it. *)
Record t := mk {
  start : float;
  end_ : float;
  text : string;
  word_index : Z;
  speaker : option string
}.

Definition set_speaker (w : t) (s : string) : t :=
  mk (start w) (end_ w) (text w) (word_index w) (Some s).
End WordInfo.

Module config.
Record t := mk {
  ALIGNMENT_TARGET_WORDS_PER_CHUNK : Z;
  ALIGNMENT_MAX_WORKERS : Z
}.
End config.

Module alignment.

(** *** bisect.bisect_right

    The loop of the standard library:
    [while lo < hi: mid = (lo + hi) // 2; if x < a[mid]: hi = mid else: lo = mid + 1].
    [fuel] bounds the number of iterations; [List.length a] is always enough
    (lemma [bisect_loop_fuel] below). *)
Fixpoint bisect_loop (fuel : nat) (a : list float) (x : float) (lo hi : nat)
  : nat :=
  match fuel with
  | O => lo
  | S fuel' =>
      if (lo <? hi)%nat then
        let mid := ((lo + hi) / 2)%nat in
        if (x <? nth mid a nan)%float
        then bisect_loop fuel' a x lo mid
        else bisect_loop fuel' a x (mid + 1) hi
      else lo
  end.

Definition bisect_right (a : list float) (x : float) : nat :=
  bisect_loop (List.length a) a x 0 (List.length a).

(** [turn['start'] <= word_midpoint < turn['end']] *)
Definition covers (turn : Turn.t) (word_midpoint : float) : bool :=
  ((Turn.start turn <=? word_midpoint)
   && (word_midpoint <? Turn.end_ turn))%float.

(** The speaker of the turn at index [i] when that turn covers the midpoint. *)
Definition speaker_at (speaker_turns_tuple : list Turn.t) (i : Z)
    (word_midpoint : float) : option string :=
  match nth_error speaker_turns_tuple (Z.to_nat i) with
  | Some turn =>
      if covers turn word_midpoint then Some (Turn.speaker turn) else None
  | None => None
  end.

Definition midpoint (word_start word_end : float) : float :=
  (word_start + (word_end - word_start) / 2)%float.

Definition _find_speaker_for_word (word_info : WordInfo.t)
    (speaker_turns_tuple : list Turn.t) : WordInfo.t :=
  let word_start := WordInfo.start word_info in
  let word_end := WordInfo.end_ word_info in
  let word_midpoint := midpoint word_start word_end in
  let speaker := "UNKNOWN"%string in
  match speaker_turns_tuple with
  | [] => WordInfo.set_speaker word_info speaker
  | _ :: _ =>
      let turn_start_times := map Turn.start speaker_turns_tuple in
      let potential_turn_index :=
        (Z.of_nat (bisect_right turn_start_times word_midpoint) - 1)%Z in
      let found :=
        if (potential_turn_index >=? 0)%Z
        then speaker_at speaker_turns_tuple potential_turn_index word_midpoint
        else None in
      let speaker :=
        match found with
        | Some s => s
        | None =>
            let next_turn_index := (potential_turn_index + 1)%Z in
            let found_next :=
              if (next_turn_index <? Z.of_nat (List.length speaker_turns_tuple))%Z
              then speaker_at speaker_turns_tuple next_turn_index word_midpoint
              else None in
            match found_next with
            | Some s => s
            | None => speaker
            end
        end in
      WordInfo.set_speaker word_info speaker
  end.

(** *** Preparing the words (the two nested loops over segments and words) *)

Definition prepare_word (st : list WordInfo.t * Z) (w : Word.t)
  : list WordInfo.t * Z :=
  let '(words_to_process, word_index) := st in
  let word_text := pystr.strip (Word.word w) in
  if pystr.truthy word_text
  then (words_to_process
          ++ [WordInfo.mk (Word.start w) (Word.end_ w) word_text word_index None],
        (word_index + 1)%Z)
  else st.

Definition prepare_words (segments : list Segment.t) : list WordInfo.t :=
  fst (fold_left
         (fun st segment => fold_left prepare_word (Segment.words segment) st)
         segments ([], 0%Z)).

(** *** list.sort(key=lambda x: x['start'])

    [list.sort] is stable and compares keys with [<] only.  On keys that
    [<] orders totally (no NaN) its result is the stable sorted permutation,
    which insertion from the right computes. *)
Fixpoint insert_turn (t : Turn.t) (l : list Turn.t) : list Turn.t :=
  match l with
  | [] => [t]
  | u :: l' =>
      if (Turn.start u <? Turn.start t)%float
      then u :: insert_turn t l'
      else t :: l
  end.

Definition sort_by_start (l : list Turn.t) : list Turn.t :=
  fold_right insert_turn [] l.

(** *** multiprocessing.Pool.map *)

(** [Pool._get_tasks]: consecutive batches of [size] items, the last one
    possibly shorter. *)
Fixpoint get_tasks {A : Type} (fuel size : nat) (it : list A)
  : list (list A) :=
  match fuel with
  | O => []
  | S fuel' =>
      match firstn size it with
      | [] => []
      | x => x :: get_tasks fuel' size (skipn size it)
      end
  end.

(** [MapResult._set]: [self._value[i*chunksize:(i+1)*chunksize] = result] *)
Definition set_chunk {B : Type} (value : list (option B)) (chunksize i : nat)
    (result : list B) : list (option B) :=
  firstn (i * chunksize) value ++ map Some result
    ++ skipn ((i + 1) * chunksize) value.

Fixpoint all_filled {B : Type} (value : list (option B)) : option (list B) :=
  match value with
  | [] => Some []
  | None :: _ => None
  | Some b :: rest =>
      match all_filled rest with
      | Some l => Some (b :: l)
      | None => None
      end
  end.

(** [pool.map(func, iterable, chunksize)] when no task raises.  [order] lists
    the batch indices in the order in which the workers finish them; the
    result slots start as [None] and [map] returns once every batch has been
    stored.  The result is [None] when [order] leaves a slot empty, which is
    the call never returning. *)
Definition pool_map {A B : Type} (func : A -> B) (iterable : list A)
    (chunksize : nat) (order : list nat) : option (list B) :=
  let tasks := get_tasks (List.length iterable) chunksize iterable in
  let value :=
    fold_left
      (fun value i => set_chunk value chunksize i (map func (nth i tasks [])))
      order (repeat None (List.length iterable)) in
  all_filled value.

(** A run of the pool in which every batch completes exactly once. *)
Definition complete_run {A : Type} (iterable : list A) (chunksize : nat)
    (order : list nat) : Prop :=
  Permutation order
    (seq 0 (List.length (get_tasks (List.length iterable) chunksize iterable))).

(** The exceptions the [try] block distinguishes. *)
Inductive pool_exception :=
| TimeoutError
| AuthenticationError
| OtherException.

(** What the pool does during one call: it completes the batches in some
    order, or an exception leaves the [with] block (raised by the pool
    itself or re-raised from a worker). *)
Inductive pool_run :=
| Completes (order : list nat)
| Raises (e : pool_exception).

(** [math.ceil(a / b)] for integers [a] and positive [b].  The quotient is a
    float; for [0 <= a < 2^53] its rounding error is smaller than the
    distance [1 / b] of a fractional quotient to the next integer, so the
    ceiling is the exact one. *)
Definition ceil_div (a b : Z) : Z := (- ((- a) / b))%Z.

Definition num_workers_for (cfg : config.t) (total_words : Z) : Z :=
  let target_chunk_size := config.ALIGNMENT_TARGET_WORDS_PER_CHUNK cfg in
  let max_workers := config.ALIGNMENT_MAX_WORKERS cfg in
  if ((total_words >? 0) && (target_chunk_size >? 0))%Z then
    let num_chunks_ideal := ceil_div total_words target_chunk_size in
    let num_workers := Z.min max_workers num_chunks_ideal in
    Z.max 1 num_workers
  else 1%Z.

Definition chunksize_for (total_words num_workers : Z) : Z :=
  let chunk_factor := 4%Z in
  if (total_words >? 0)%Z
  then Z.max 1 (ceil_div total_words (num_workers * chunk_factor))
  else 1%Z.

(** *** align_speech_and_speakers

    The argument [speaker_turns] names a list object that the caller still
    holds.  The store has two list objects: the caller's, and the empty list
    the function creates when the argument is empty; the local variable is
    a reference to one of them. *)
Inductive ref := CallerList | FreshList.

Record store := mkStore { caller_list : list Turn.t; fresh_list : list Turn.t }.

Definition deref (h : store) (r : ref) : list Turn.t :=
  match r with CallerList => caller_list h | FreshList => fresh_list h end.

(** [r.sort(key=lambda x: x['start'])]: sorts the object in place. *)
Definition sort_in_place (h : store) (r : ref) : store :=
  match r with
  | CallerList => mkStore (sort_by_start (caller_list h)) (fresh_list h)
  | FreshList => mkStore (caller_list h) (sort_by_start (fresh_list h))
  end.

(** [turns] is the content of the caller's list object when the call is
    made.  The result pairs the content of that same object when the call
    returns with the returned list, [None] standing for a call that does
    not return. *)
Definition align_speech_and_speakers (cfg : config.t) (pool : pool_run)
    (segments : list Segment.t) (turns : list Turn.t)
  : list Turn.t * option (list WordInfo.t) :=
  let h := mkStore turns [] in
  let speaker_turns :=
    match deref h CallerList with [] => FreshList | _ :: _ => CallerList end in
  let words_to_process := prepare_words segments in
  match words_to_process with
  | [] => (caller_list h, Some [])
  | _ :: _ =>
      let total_words := Z.of_nat (List.length words_to_process) in
      let h := sort_in_place h speaker_turns in
      let speaker_turns_tuple := deref h speaker_turns in
      let num_workers := num_workers_for cfg total_words in
      let chunksize := chunksize_for total_words num_workers in
      let worker_func :=
        fun word_info => _find_speaker_for_word word_info speaker_turns_tuple in
      match pool with
      | Completes order =>
          (caller_list h,
           pool_map worker_func words_to_process (Z.to_nat chunksize) order)
      | Raises TimeoutError => (caller_list h, Some [])
      | Raises AuthenticationError => (caller_list h, Some [])
      | Raises OtherException => (caller_list h, Some [])
      end
  end.

(** The chunk size [align_speech_and_speakers] passes to [pool.map]. *)
Definition chunksize_of (cfg : config.t) (segments : list Segment.t) : nat :=
  let total_words := Z.of_nat (List.length (prepare_words segments)) in
  Z.to_nat (chunksize_for total_words (num_workers_for cfg total_words)).

(** The words of all segments, in order. *)
Definition words_of (segments : list Segment.t) : list Word.t :=
  flat_map Segment.words segments.

(** The word's text is not empty once trimmed. *)
Definition nonblank (w : Word.t) : bool :=
  pystr.truthy (pystr.strip (Word.word w)).

(** The dicts built from a list of words, numbered from [k]. *)
Fixpoint number_from (k : Z) (ws : list Word.t) : list WordInfo.t :=
  match ws with
  | [] => []
  | w :: ws' =>
      WordInfo.mk (Word.start w) (Word.end_ w) (pystr.strip (Word.word w)) k None
        :: number_from (k + 1) ws'
  end.

(** [align_words_with_speakers = align_speech_and_speakers] *)
Definition align_words_with_speakers := align_speech_and_speakers.

End alignment.

(** ** output_utils.py *)

Module AlignedWord.
(** An element of [aligned_words] as the aligner produces it: a dict in
    which any of the four keys may be missing ([None] below), and in which
    [text] and [speaker] are strings when present; for [start] and [end],
    [None] also stands for a key that holds Python's [None], which
    [save_to_srt] treats alike.  An element that is itself [None] or an
    empty dict is the record with four [None]s.  [RawWord] below drops the
    assumption on [text] and [speaker]. *)
Record t := mk {
  start : option float;
  end_ : option float;
  text : option string;
  speaker : option string
}.
End AlignedWord.

Module srt_options.
(** The options dict; [None] is a missing key, [Some None] a key that holds
    Python's [None]. *)
Record t := mk {
  max_line_length : option (option Z);
  max_words_per_entry : option (option Z);
  speaker_gap_threshold : option float
}.
End srt_options.

Module RawWord.
(** An element of [aligned_words] as it may reach [save_to_srt], with no
    assumption on what the keys [text] and [speaker] hold: [None] is a
    missing key, [Some None] a key that holds Python's [None].  For [start]
    and [end], [None] stands for both, which the guard treats alike.  An
    element that is itself [None] or an empty dict is the record with four
    [None]s. *)
Record t := mk {
  start : option float;
  end_ : option float;
  text : option (option string);
  speaker : option (option string)
}.
End RawWord.

Module output_utils.

Definition NL : string := String "010"%char EmptyString.

(** The dynamic types [format_srt_time] tells apart. *)
Inductive pyvalue :=
| PyNone
| PyInt (n : Z)
| PyFloat (x : float)
| PyOther.

(** [str(n)] *)
Definition str_int (n : Z) : string :=
  DecimalString.NilZero.string_of_int (Z.to_int n).

Fixpoint zeros (k : nat) : string :=
  match k with O => EmptyString | S k' => String "0"%char (zeros k') end.

(** [f"{n:0w}"] for an integer [n]: the sign, then the digits padded with
    zeros to [w] characters in all. *)
Definition fmt0 (w : nat) (n : Z) : string :=
  if (n <? 0)%Z then
    let d := str_int (- n) in
    String "-"%char (zeros (w - 1 - String.length d) ++ d)
  else
    let d := str_int n in zeros (w - String.length d) ++ d.

(** The last four statements of [format_srt_time], given [int(seconds)] and
    the value computed for [millisec]. *)
Definition hms (whole millisec : Z) : string :=
  let sec := Z.max 0 (whole mod 60) in
  let mins := Z.max 0 ((whole / 60) mod 60) in
  let hrs := Z.max 0 (whole / 3600) in
  (fmt0 2 hrs ++ ":" ++ fmt0 2 mins ++ ":" ++ fmt0 2 sec ++ ","
     ++ fmt0 3 millisec)%string.

(** [format_srt_time] on a float. *)
Definition format_srt_time_float (seconds : float) : string :=
  if is_nan seconds || is_infinity seconds then "00:00:00,000"%string
  else
    let whole := pyfloat.trunc seconds in
    let millisec :=
      Z.max 0 (pyfloat.trunc
                 ((seconds - pyfloat.of_int whole) * pyfloat.of_int 1000)%float)
    in
    hms whole millisec.

(** [format_srt_time]; [None] stands for the OverflowError that
    [math.isnan] raises on an integer too large for a float. *)
Definition format_srt_time (seconds : pyvalue) : option string :=
  match seconds with
  | PyNone => Some "00:00:00,000"%string
  | PyOther => Some "00:00:00,000"%string
  | PyFloat x => Some (format_srt_time_float x)
  | PyInt n =>
      if pyfloat.int_fits n
      then Some (hms n (Z.max 0 ((n - n) * 1000)))
      else None
  end.

(** [not max_line_length]: the value is [None] or zero. *)
Definition falsy_int (v : option Z) : bool :=
  match v with None => true | Some n => (n =? 0)%Z end.

Definition wrap_step (max_line_length : Z) (st : list string * string)
    (word : string) : list string * string :=
  let '(wrapped_lines, current_line) := st in
  if negb (pystr.truthy current_line) then (wrapped_lines, word)
  else if (pystr.len current_line + pystr.len word + 1 <=? max_line_length)%Z
  then (wrapped_lines, (current_line ++ " " ++ word)%string)
  else (wrapped_lines ++ [current_line], word).

Definition wrap_lines (max_line_length : Z) (words : list string)
  : list string :=
  let '(wrapped_lines, current_line) :=
    fold_left (wrap_step max_line_length) words ([], EmptyString) in
  if pystr.truthy current_line then wrapped_lines ++ [current_line]
  else wrapped_lines.

Definition _wrap_text_to_lines (text : string) (max_line_length : option Z)
  : string :=
  match max_line_length with
  | None => text
  | Some n =>
      if (n =? 0)%Z || (pystr.len text <=? n)%Z then text
      else pystr.join NL (wrap_lines n (pystr.split text))
  end.

(** *** save_to_srt *)

(** The local variables of the loop, and the strings written to the file so
    far, one per call of [f_srt.write]. *)
Record srt_state := mkState {
  f_srt : list string;
  srt_sequence : Z;
  phrase_start_time : option float;
  phrase_end_time : option float;
  phrase_text : string;
  current_speaker_srt : option string;
  words_in_phrase : Z;
  last_word_end_time : float
}.

Definition initial_state : srt_state :=
  mkState [] 1 None None EmptyString None 0 0%float.

(** [srt_options.get(key, default)] *)
Definition get {A : Type} (v : option A) (default : A) : A :=
  match v with Some a => a | None => default end.

(** How an f-string renders a value that is a string or [None]. *)
Definition str_opt (s : option string) : string :=
  match s with Some s => s | None => "None"%string end.

Definition time_value (t : option float) : pyvalue :=
  match t with Some x => PyFloat x | None => PyNone end.

(** [format_srt_time] at a phrase boundary, which is a float or [None]. *)
Definition srt_time (t : option float) : string :=
  match t with
  | Some x => format_srt_time_float x
  | None => "00:00:00,000"%string
  end.

(** The text block of an entry: the speaker tag and the stripped phrase,
    wrapped as one line. *)
Definition entry_text (max_line_length : option Z)
    (current_speaker_srt : option string) (phrase_text : string) : string :=
  let line_to_write :=
    ("[" ++ str_opt current_speaker_srt ++ "]: "
       ++ pystr.strip phrase_text)%string in
  _wrap_text_to_lines line_to_write max_line_length.

(** The three [write] calls that emit the open phrase. *)
Definition entry_writes (max_line_length : option Z) (srt_sequence : Z)
    (phrase_start_time phrase_end_time : option float)
    (current_speaker_srt : option string) (phrase_text : string)
  : list string :=
  [ (str_int srt_sequence ++ NL)%string;
    (srt_time phrase_start_time ++ " --> " ++ srt_time phrase_end_time
       ++ NL)%string;
    (entry_text max_line_length current_speaker_srt phrase_text
       ++ NL ++ NL)%string ].

Definition opt_string_eqb (a : option string) (b : string) : bool :=
  match a with Some a => String.eqb a b | None => false end.

(** One iteration of the [for i, word_info in enumerate(aligned_words)]
    loop. *)
Definition srt_step (opts : srt_options.t) (i : Z) (word_info : AlignedWord.t)
    (st : srt_state) : srt_state :=
  let max_line_length := get (srt_options.max_line_length opts) (Some 42%Z) in
  let max_words_per_entry :=
    get (srt_options.max_words_per_entry opts) (Some 10%Z) in
  let gap_threshold := get (srt_options.speaker_gap_threshold opts) 1%float in
  match AlignedWord.start word_info, AlignedWord.end_ word_info,
        AlignedWord.text word_info, AlignedWord.speaker word_info with
  | Some word_start_time, Some word_end_time, Some text, Some speaker =>
      if (word_end_time <? word_start_time)%float then st
      else
        let is_new_speaker :=
          negb (opt_string_eqb (current_speaker_srt st) speaker) in
        let is_long_gap :=
          (i >? 0)%Z
          && (gap_threshold <? word_start_time - last_word_end_time st)%float in
        let is_phrase_too_long :=
          match max_words_per_entry with
          | Some n => (words_in_phrase st >=? n)%Z
          | None => false
          end in
        let st :=
          if pystr.truthy (phrase_text st)
             && (is_new_speaker || is_long_gap || is_phrase_too_long)
          then
            mkState
              (f_srt st
                 ++ entry_writes max_line_length (srt_sequence st)
                      (phrase_start_time st) (phrase_end_time st)
                      (current_speaker_srt st) (phrase_text st))
              (srt_sequence st + 1)
              (phrase_start_time st) (phrase_end_time st) EmptyString
              (current_speaker_srt st) (words_in_phrase st)
              (last_word_end_time st)
          else st in
        let st :=
          if negb (pystr.truthy (phrase_text st)) then
            mkState (f_srt st) (srt_sequence st) (Some word_start_time)
              (Some word_end_time) text (Some speaker) 1
              (last_word_end_time st)
          else if negb is_new_speaker then
            mkState (f_srt st) (srt_sequence st) (phrase_start_time st)
              (Some word_end_time) (phrase_text st ++ " " ++ text)%string
              (current_speaker_srt st) (words_in_phrase st + 1)
              (last_word_end_time st)
          else
            mkState (f_srt st) (srt_sequence st) (Some word_start_time)
              (Some word_end_time) text (Some speaker) 1
              (last_word_end_time st) in
        mkState (f_srt st) (srt_sequence st) (phrase_start_time st)
          (phrase_end_time st) (phrase_text st) (current_speaker_srt st)
          (words_in_phrase st) word_end_time
  | _, _, _, _ => st
  end.

Fixpoint srt_loop (opts : srt_options.t) (i : Z)
    (aligned_words : list AlignedWord.t) (st : srt_state) : srt_state :=
  match aligned_words with
  | [] => st
  | word_info :: rest =>
      srt_loop opts (i + 1) rest (srt_step opts i word_info st)
  end.

(** The strings [save_to_srt] writes to the file, in order, for words whose
    [text] and [speaker] are strings when present and a gap threshold that
    is a number; the file holds their concatenation and the function
    returns [True].  [raw_save_to_srt] below covers words and a threshold
    of any content, where the function can return [False], and agrees with
    this one on the words read here (lemma [raw_save_to_srt_typed]). *)
Definition save_to_srt (aligned_words : list AlignedWord.t)
    (opts : srt_options.t) : list string :=
  let max_line_length := get (srt_options.max_line_length opts) (Some 42%Z) in
  let st := srt_loop opts 0 aligned_words initial_state in
  if pystr.truthy (phrase_text st) then
    f_srt st
      ++ entry_writes max_line_length (srt_sequence st) (phrase_start_time st)
           (phrase_end_time st) (current_speaker_srt st) (phrase_text st)
  else f_srt st.

(** *** save_to_srt on words and options of any content

    [save_to_srt] above reads words whose [text] and [speaker] are strings
    when present, with a gap threshold that is a number; there nothing
    raises.  The definitions below make no such assumption.  The three
    options are given as the values of the locals [max_line_length],
    [max_words_per_entry] and [gap_threshold], [None] being Python's
    [None].  A TypeError leaves the [with] block, which closes the file with
    what was written, and the function returns [False]. *)

(** [a == b] for two values that are each a string or [None]. *)
Definition opt_eqb (a b : option string) : bool :=
  match a, b with
  | Some a, Some b => String.eqb a b
  | None, None => true
  | _, _ => false
  end.

(** One iteration of the loop.  [inr written] is a TypeError, raised once
    the strings [written] have been written.  [phrase_text], which is only
    tested for emptiness while it is not a string, holds the empty string
    for [None]. *)
Definition raw_srt_step (max_line_length max_words_per_entry : option Z)
    (gap_threshold : option float) (i : Z) (word_info : RawWord.t)
    (st : srt_state) : srt_state + list string :=
  match RawWord.start word_info, RawWord.end_ word_info,
        RawWord.text word_info, RawWord.speaker word_info with
  | Some word_start_time, Some word_end_time, Some text, Some speaker =>
      if (word_end_time <? word_start_time)%float then inl st
      else
        let is_new_speaker :=
          negb (opt_eqb (current_speaker_srt st) speaker) in
        let is_long_gap :=
          if (i >? 0)%Z then
            match gap_threshold with
            | Some gap_threshold =>
                Some (gap_threshold
                        <? word_start_time - last_word_end_time st)%float
            | None => None
            end
          else Some false in
        match is_long_gap with
        | None => inr (f_srt st)
        | Some is_long_gap =>
            let is_phrase_too_long :=
              match max_words_per_entry with
              | Some n => (words_in_phrase st >=? n)%Z
              | None => false
              end in
            let st :=
              if pystr.truthy (phrase_text st)
                 && (is_new_speaker || is_long_gap || is_phrase_too_long)
              then
                mkState
                  (f_srt st
                     ++ entry_writes max_line_length (srt_sequence st)
                          (phrase_start_time st) (phrase_end_time st)
                          (current_speaker_srt st) (phrase_text st))
                  (srt_sequence st + 1)
                  (phrase_start_time st) (phrase_end_time st) EmptyString
                  (current_speaker_srt st) (words_in_phrase st)
                  (last_word_end_time st)
              else st in
            if negb (pystr.truthy (phrase_text st)) then
              inl (mkState (f_srt st) (srt_sequence st) (Some word_start_time)
                     (Some word_end_time) (get text EmptyString) speaker 1
                     word_end_time)
            else if negb is_new_speaker then
              match text with
              | Some text =>
                  inl (mkState (f_srt st) (srt_sequence st)
                         (phrase_start_time st) (Some word_end_time)
                         (phrase_text st ++ " " ++ text)%string
                         (current_speaker_srt st) (words_in_phrase st + 1)
                         word_end_time)
              | None => inr (f_srt st)
              end
            else
              inl (mkState (f_srt st) (srt_sequence st) (Some word_start_time)
                     (Some word_end_time) (get text EmptyString) speaker 1
                     word_end_time)
        end
  | _, _, _, _ => inl st
  end.

Fixpoint raw_srt_loop (max_line_length max_words_per_entry : option Z)
    (gap_threshold : option float) (i : Z) (aligned_words : list RawWord.t)
    (st : srt_state) : srt_state + list string :=
  match aligned_words with
  | [] => inl st
  | word_info :: rest =>
      match raw_srt_step max_line_length max_words_per_entry gap_threshold i
              word_info st with
      | inl st' =>
          raw_srt_loop max_line_length max_words_per_entry gap_threshold
            (i + 1) rest st'
      | inr written => inr written
      end
  end.

(** The strings written to the file, and the value returned. *)
Definition raw_save_to_srt (aligned_words : list RawWord.t)
    (max_line_length max_words_per_entry : option Z)
    (gap_threshold : option float) : list string * bool :=
  match raw_srt_loop max_line_length max_words_per_entry gap_threshold 0
          aligned_words initial_state with
  | inl st =>
      (if pystr.truthy (phrase_text st) then
         f_srt st
           ++ entry_writes max_line_length (srt_sequence st)
                (phrase_start_time st) (phrase_end_time st)
                (current_speaker_srt st) (phrase_text st)
       else f_srt st,
       true)
  | inr written => (written, false)
  end.

(** *** save_to_txt *)

(** The local variables of the loop and the strings written so far. *)
Record txt_state := mkTxt {
  f_txt : list string;
  current_speaker_txt : option string;
  current_line_txt : string
}.

(** [f"[{current_speaker_txt}]: {current_line_txt.strip()}\n"] *)
Definition txt_line (current_speaker_txt : option string)
    (current_line_txt : string) : string :=
  ("[" ++ str_opt current_speaker_txt ++ "]: "
     ++ pystr.strip current_line_txt ++ NL)%string.

(** One iteration of the [for word_info in aligned_words] loop. *)
Definition txt_step (st : txt_state) (word_info : AlignedWord.t) : txt_state :=
  match AlignedWord.text word_info with
  | None => st
  | Some text =>
      if negb (pystr.truthy text) then st
      else
        let speaker := get (AlignedWord.speaker word_info) "UNKNOWN"%string in
        if negb (opt_string_eqb (current_speaker_txt st) speaker) then
          mkTxt
            (if pystr.truthy (current_line_txt st)
             then f_txt st
                    ++ [txt_line (current_speaker_txt st) (current_line_txt st)]
             else f_txt st)
            (Some speaker) text
        else
          mkTxt (f_txt st) (current_speaker_txt st)
            (current_line_txt st ++ " " ++ text)
  end.

(** The strings [save_to_txt] writes to the file, in order; the function
    returns [True]. *)
Definition save_to_txt (aligned_words : list AlignedWord.t) : list string :=
  let st := fold_left txt_step aligned_words (mkTxt [] None EmptyString) in
  if pystr.truthy (current_line_txt st)
  then f_txt st ++ [txt_line (current_speaker_txt st) (current_line_txt st)]
  else f_txt st.

Definition save_transcript_with_speakers (aligned_words : list AlignedWord.t)
  : list string :=
  save_to_txt aligned_words.

End output_utils.

(** ** diarizer.py *)

Module diarizer.

(** What [extract_speaker_turns] is given: [None], or a diarization whose
    [itertracks(yield_label=True)] yields the tracks (start, end, label) or
    raises before the last one is read. *)
Inductive diarization_result :=
| NoResult
| Tracks (tracks : list (float * float * string))
| TracksRaise (tracks : list (float * float * string)).

Definition turn_of (track : float * float * string) : Turn.t :=
  let '(start, end_, speaker_label) := track in
  Turn.mk start end_ speaker_label.

Definition extract_speaker_turns (diarization_result : diarization_result)
  : list Turn.t :=
  match diarization_result with
  | NoResult => []
  | Tracks tracks =>
      let speaker_turns := map turn_of tracks in
      alignment.sort_by_start speaker_turns
  | TracksRaise _ => []
  end.

End diarizer.

(** ** transcribe_meeting_script.py *)

Module transcribe_meeting_script.

(** The dict [_find_speaker_for_word] returns, as [save_to_txt] reads it. *)
Definition as_aligned_word (w : WordInfo.t) : AlignedWord.t :=
  AlignedWord.mk (Some (WordInfo.start w)) (Some (WordInfo.end_ w))
    (Some (WordInfo.text w)) (WordInfo.speaker w).

(** Steps 7 and 8 of [main]:
    [aligned_words = alignment.align_words_with_speakers(segments_list, speaker_turns)],
    [output_utils.save_transcript_with_speakers(aligned_words, ...)],
    [processing_successful = True].
    The result pairs the strings written to the transcript with the flag;
    it is [None] when the alignment does not return. *)
Definition main_steps_7_8 (cfg : config.t) (pool : alignment.pool_run)
    (segments_list : list Segment.t) (speaker_turns : list Turn.t)
  : option (list string * bool) :=
  match snd (alignment.align_words_with_speakers cfg pool segments_list
               speaker_turns) with
  | Some aligned_words =>
      let written :=
        output_utils.save_transcript_with_speakers
          (map as_aligned_word aligned_words) in
      let processing_successful := true in
      Some (written, processing_successful)
  | None => None
  end.

End transcribe_meeting_script.

(** * Vocabulary of the properties *)

Import alignment.
Import output_utils.
Import diarizer.
Import transcribe_meeting_script.

(** ** Floats and the pool *)

(** NaN, on the unpacked form of a float. *)
Definition sf_is_nan (x : spec_float) : bool :=
  match x with S754_nan => true | _ => false end.

(** The result slot [j] once the batches listed in [done] are stored. *)
Definition slot {A B : Type} (cs : nat) (func : A -> B) (done : list nat)
    (j : nat) (x : A) : option B :=
  if existsb (Nat.eqb (j / cs)) done then Some (func x) else None.

(** The result list after the batches listed in [done] have completed. *)
Definition slots_inv {A B : Type} (cs : nat) (func : A -> B)
    (iterable : list A) (done : list nat) (value : list (option B)) : Prop :=
  List.length value = List.length iterable /\
  forall j,
    nth_error value j = option_map (slot cs func done j) (nth_error iterable j).

(** ** Alignment *)

(** The default configuration on an eight-core machine. *)
Definition demo_cfg : config.t := config.mk 500 7.

(** One segment of three words, the last one blank. *)
Definition demo_segments : list Segment.t :=
  [Segment.mk [Word.mk 0 1 "Hello"; Word.mk 1.1 2 "world"; Word.mk 2 2.5 "  "]].

(** Two turns, given in descending order of start. *)
Definition demo_turns : list Turn.t :=
  [Turn.mk 1.5 2.5 "SPEAKER_2"; Turn.mk 0 1.5 "SPEAKER_1"].

(** [a] may stand before [b] in a list sorted by [start]. *)
Definition start_ordered (a b : Turn.t) : Prop :=
  (Turn.start b <? Turn.start a)%float = false.

(** The turn's start is a number. *)
Definition start_not_nan (u : Turn.t) : Prop := is_nan (Turn.start u) = false.

(** [a] starts no later than [b]. *)
Definition start_le (a b : Turn.t) : Prop :=
  (Turn.start a <=? Turn.start b)%float = true.

(** A prepared word from [s] to [e]. *)
Definition word (s e : float) : WordInfo.t := WordInfo.mk s e "word" 0 None.

(** [w]'s interval lies inside [t]'s. *)
Definition inside (w : WordInfo.t) (t : Turn.t) : bool :=
  ((Turn.start t <=? WordInfo.start w) && (WordInfo.end_ w <=? Turn.end_ t))%float.

(** ** Output *)

(** The digits of [s] read as the number [n] (leading zeros allowed). *)
Definition reads_as (s : string) (n : Z) : Prop :=
  exists d, NilEmpty.uint_of_string s = Some d /\ Z.of_uint d = n.

(** The value computed for [millisec]: for a float, the integer part of the
    float product of [seconds - int(seconds)] and 1000, or 0 if that is
    negative; for an integer, 0. *)
Definition millis (seconds : pyvalue) : Z :=
  match seconds with
  | PyFloat x =>
      Z.max 0
        (pyfloat.trunc ((x - pyfloat.of_int (pyfloat.trunc x)) * 1000)%float)
  | PyNone | PyInt _ | PyOther => 0%Z
  end.

(** The integer part of a non-negative finite number of seconds. *)
Definition whole_seconds (seconds : pyvalue) : option Z :=
  match seconds with
  | PyInt n => if (0 <=? n)%Z && pyfloat.int_fits n then Some n else None
  | PyFloat x =>
      if is_finite x && (0 <=? x)%float then Some (pyfloat.trunc x) else None
  | PyNone | PyOther => None
  end.

(** A word with its four keys present and not [start > end]. *)
Definition well_formed (w : AlignedWord.t) : bool :=
  match AlignedWord.start w, AlignedWord.end_ w,
        AlignedWord.text w, AlignedWord.speaker w with
  | Some word_start_time, Some word_end_time, Some _, Some _ =>
      negb (word_end_time <? word_start_time)%float
  | _, _, _, _ => false
  end.


(** A word whose [text] and [speaker] are strings when present, as a word
    of any content. *)
Definition raw_of (w : AlignedWord.t) : RawWord.t :=
  RawWord.mk (AlignedWord.start w) (AlignedWord.end_ w)
    (option_map Some (AlignedWord.text w))
    (option_map Some (AlignedWord.speaker w)).




(** A word with all four keys, spoken by [speaker]. *)
Definition spoken (speaker : string) (v : float * float * string)
  : AlignedWord.t :=
  let '(s, e, t) := v in AlignedWord.mk (Some s) (Some e) (Some t) (Some speaker).

(** Not [start > end], and a text that is not empty. *)
Definition valid_word (v : float * float * string) : bool :=
  let '(s, e, t) := v in negb (e <? s)%float && pystr.truthy t.

(** No word starts more than [gap_threshold] after [previous_end], the end
    of the word before it. *)
Fixpoint no_long_gap (gap_threshold previous_end : float)
    (vs : list (float * float * string)) : bool :=
  match vs with
  | [] => true
  | (s, e, _) :: rest =>
      negb (gap_threshold <? s - previous_end)%float
      && no_long_gap gap_threshold e rest
  end.

(** The same within a run of words: each word against the one before. *)
Definition contiguous (gap_threshold : float)
    (vs : list (float * float * string)) : bool :=
  match vs with
  | [] => true
  | (_, e, _) :: rest => no_long_gap gap_threshold e rest
  end.

(** The texts, the first start and the last end of a run of words. *)
Definition texts (vs : list (float * float * string)) : list string :=
  map (fun v => snd v) vs.

Definition first_start (vs : list (float * float * string)) : option float :=
  match vs with [] => None | (s, _, _) :: _ => Some s end.

Definition last_end (vs : list (float * float * string)) : option float :=
  fold_left (fun _ v => Some (snd (fst v))) vs None.

(** An entry of the subtitle file, as the three strings written for it:
    its number; the times of its first and of its last word; and the line
    "[SPEAKER]: words", wrapped, with the blank line that ends the entry. *)
Definition subtitle_entry (max_line_length : option Z) (n : Z)
    (speaker : string) (from to : float) (words : list string)
  : list string :=
  [ (str_int n ++ NL)%string;
    (format_srt_time_float from ++ " --> " ++ format_srt_time_float to
       ++ NL)%string;
    (_wrap_text_to_lines
       ("[" ++ speaker ++ "]: " ++ pystr.strip (pystr.join " " words))
       max_line_length ++ NL ++ NL)%string ].

(** The entry numbered [n] for the phrase made of the words [vs]: it runs
    from the start of the first word to the end of the last. *)
Definition entry_of (opts : srt_options.t) (n : Z) (speaker : string)
    (vs : list (float * float * string)) : list string :=
  match vs with
  | [] => []
  | v :: rest =>
      subtitle_entry (get (srt_options.max_line_length opts) (Some 42%Z)) n
        speaker (fst (fst v)) (snd (fst (last rest v))) (texts vs)
  end.

(** A word from [s] to [e] with the text [t]. *)
Definition timed (s e : float) (t : string) : float * float * string :=
  (s, e, t).

(** Eleven half-second words, one per second. *)
Definition eleven_words : list (float * float * string) :=
  [timed 0 0.5 "one"; timed 1 1.5 "two"; timed 2 2.5 "three";
   timed 3 3.5 "four"; timed 4 4.5 "five"; timed 5 5.5 "six";
   timed 6 6.5 "seven"; timed 7 7.5 "eight"; timed 8 8.5 "nine";
   timed 9 9.5 "ten"; timed 10 10.5 "eleven"].

(** The default subtitle options, spelled out. *)
Definition demo_options : srt_options.t :=
  srt_options.mk (Some (Some 42%Z)) (Some (Some 10%Z)) (Some 1%float).

(** No character of [s] is whitespace. *)
Fixpoint no_space (s : string) : bool :=
  match s with
  | EmptyString => true
  | String c s' => negb (pystr.isspace c) && no_space s'
  end.

(** A line of the wrapped text: its words joined by single spaces. *)
Definition line_of (g : list string) : string := pystr.join " " g.

(** A line holds at least one word, and it fits unless it is one word. *)
Definition fits (n : Z) (g : list string) : Prop :=
  g <> [] /\ (List.length g = 1 \/ (pystr.len (line_of g) <= n)%Z).

(** The line being filled is empty, or made of non-empty words and fitting. *)
Definition open_line_ok (n : Z) (g : list string) : Prop :=
  g = [] \/ (Forall (fun t => pystr.truthy t = true) g /\ fits n g).

(** An entry as written: its number, its two times, its speaker and the
    text of its phrase. *)
Definition written_entry : Type :=
  Z * option float * option float * string * string.

(** The three writes of an entry. *)
Definition writes_of (max_line_length : option Z) (entry : written_entry)
  : list string :=
  let '(number, from, to, speaker, phrase) := entry in
  entry_writes max_line_length number from to (Some speaker) phrase.

(** What has been written so far is a sequence of whole entries, and an
    open phrase has a speaker. *)
Definition entries_inv (opts : srt_options.t) (st : srt_state) : Prop :=
  (exists entries,
     f_srt st
       = flat_map
           (writes_of (get (srt_options.max_line_length opts) (Some 42%Z)))
           entries) /\
  (pystr.truthy (phrase_text st) = true ->
   exists speaker, current_speaker_srt st = Some speaker).

(** ** Further vocabulary: alignment *)

(** The midpoint [_find_speaker_for_word] computes for a result. *)
Definition midpoint_of (a : WordInfo.t) : float :=
  midpoint (WordInfo.start a) (WordInfo.end_ a).

(** The label of [a] is "UNKNOWN" or the speaker of one of [turns] that
    covers the midpoint of [a]. *)
Definition label_justified (turns : list Turn.t) (a : WordInfo.t) : Prop :=
  exists s, WordInfo.speaker a = Some s /\
    (s = "UNKNOWN"%string \/
     exists t, In t turns /\ covers t (midpoint_of a) = true /\
               Turn.speaker t = s).

(** The turn is not empty: it starts before it ends. *)
Definition proper (t : Turn.t) : Prop :=
  (Turn.start t <? Turn.end_ t)%float = true.

(** One of the two turns ends before the other starts. *)
Definition apart (u t : Turn.t) : Prop :=
  (Turn.end_ u <=? Turn.start t)%float = true \/
  (Turn.end_ t <=? Turn.start u)%float = true.

(** The two turns do not start at the same time. *)
Definition starts_differ (a b : Turn.t) : Prop :=
  (Turn.start a <? Turn.start b)%float = true \/
  (Turn.start b <? Turn.start a)%float = true.

(** [a] starts strictly before [b]. *)
Definition start_lt (a b : Turn.t) : Prop :=
  (Turn.start a <? Turn.start b)%float = true.

(** Two tracks, given in descending order of start. *)
Definition demo_tracks : list (float * float * string) :=
  [timed 1.5 2.5 "SPEAKER_2"; timed 0 1.5 "SPEAKER_1"].

(** ** Further vocabulary: the transcript *)

(** The speaker and the text [save_to_txt] reads from a word; [None] for a
    word whose text is missing or empty. *)
Definition txt_word (w : AlignedWord.t) : option (string * string) :=
  match AlignedWord.text w with
  | Some text =>
      if pystr.truthy text
      then Some (get (AlignedWord.speaker w) "UNKNOWN"%string, text)
      else None
  | None => None
  end.

Definition txt_words (ws : list AlignedWord.t) : list (string * string) :=
  flat_map (fun w => match txt_word w with Some p => [p] | None => [] end) ws.

(** A paragraph of the transcript: a speaker and the texts of a run of
    words. *)
Definition paragraph (p : string * list string) : string :=
  ("[" ++ fst p ++ "]: " ++ pystr.strip (pystr.join " " (snd p)) ++ NL)%string.

(** The words of a list of paragraphs, each with its speaker. *)
Definition paragraph_words (ps : list (string * list string))
  : list (string * string) :=
  flat_map (fun p => map (pair (fst p)) (snd p)) ps.

(** Neighbours in the list differ. *)
Fixpoint changes (l : list string) : Prop :=
  match l with
  | a :: (b :: _) as l' => a <> b /\ changes l'
  | _ => True
  end.

(** The state of the loop of [save_to_txt] once the words [done] have been
    read: the paragraphs [ps] are written or, the last one, still open. *)
Definition txt_inv (st : txt_state) (done : list (string * string)) : Prop :=
  (done = [] /\ st = mkTxt [] None EmptyString) \/
  exists ps speaker texts,
    f_txt st = map paragraph ps /\
    current_speaker_txt st = Some speaker /\
    current_line_txt st = pystr.join " " texts /\
    pystr.truthy (current_line_txt st) = true /\
    texts <> [] /\
    paragraph_words (ps ++ [(speaker, texts)]) = done /\
    Forall (fun p => snd p <> []) ps /\
    changes (map fst (ps ++ [(speaker, texts)])).

(** ** Further vocabulary: subtitles *)

(** A phrase: its speaker and its words. *)
Definition phrase : Type := string * list (float * float * string).

(** The words of a list of phrases, each with its speaker. *)
Definition tagged_words (groups : list phrase)
  : list (string * (float * float * string)) :=
  flat_map (fun g => map (pair (fst g)) (snd g)) groups.

(** The dict of a word given with its speaker. *)
Definition spoken_word (p : string * (float * float * string))
  : AlignedWord.t :=
  spoken (fst p) (snd p).

(** The entries of the phrases, numbered from [n]. *)
Fixpoint entries_from (opts : srt_options.t) (n : Z) (groups : list phrase)
  : list string :=
  match groups with
  | [] => []
  | g :: rest =>
      entry_of opts n (fst g) (snd g) ++ entries_from opts (n + 1) rest
  end.

Definition gap_of (opts : srt_options.t) : float :=
  get (srt_options.speaker_gap_threshold opts) 1%float.

Definition cap_of (opts : srt_options.t) : option Z :=
  get (srt_options.max_words_per_entry opts) (Some 10%Z).

(** The phrase holds at least [n] words. *)
Definition full (opts : srt_options.t) (vs : list (float * float * string))
  : bool :=
  match cap_of opts with
  | Some n => (n <=? Z.of_nat (List.length vs))%Z
  | None => false
  end.

(** A phrase has a word, no long gap between two of its words, and no more
    words than the cap allows (one word is always allowed). *)
Definition phrase_ok (opts : srt_options.t) (g : phrase) : bool :=
  match snd g with [] => false | _ :: _ => true end
  && contiguous (gap_of opts) (snd g)
  && match cap_of opts with
     | Some n => (Z.of_nat (List.length (snd g)) <=? Z.max 1 n)%Z
     | None => true
     end.

(** Why [g2] does not continue [g1]: another speaker, a long gap, or [g1]
    is full. *)
Definition break_reason (opts : srt_options.t) (g1 g2 : phrase) : bool :=
  negb (String.eqb (fst g1) (fst g2))
  || match last_end (snd g1), first_start (snd g2) with
     | Some l, Some s => (gap_of opts <? s - l)%float
     | _, _ => false
     end
  || full opts (snd g1).

Fixpoint breaks_justified (opts : srt_options.t) (groups : list phrase)
  : bool :=
  match groups with
  | g1 :: (g2 :: _) as rest =>
      break_reason opts g1 g2 && breaks_justified opts rest
  | _ => true
  end.

(** The state of the loop of [save_to_srt] once the words of [closed] and
    of the phrase [(speaker, vs)], which is still open, have been read. *)
Definition srt_inv (opts : srt_options.t) (st : srt_state)
    (closed : list phrase) (speaker : string)
    (vs : list (float * float * string)) : Prop :=
  f_srt st = entries_from opts 1 closed /\
  srt_sequence st = (1 + Z.of_nat (List.length closed))%Z /\
  phrase_start_time st = first_start vs /\
  phrase_end_time st = last_end vs /\
  phrase_text st = pystr.join " " (texts vs) /\
  pystr.truthy (phrase_text st) = true /\
  current_speaker_srt st = Some speaker /\
  words_in_phrase st = Z.of_nat (List.length vs) /\
  last_end vs = Some (last_word_end_time st) /\
  forallb (phrase_ok opts) (closed ++ [(speaker, vs)]) = true /\
  breaks_justified opts (closed ++ [(speaker, vs)]) = true.

(** ** Further vocabulary: wrapping *)

(** No line could have taken the first word of the next line: that word,
    and a blank before it, would have passed the limit [n]. *)
Fixpoint greedy (n : Z) (groups : list (list string)) : Prop :=
  match groups with
  | g1 :: (g2 :: _) as rest =>
      (n < pystr.len (line_of g1) + pystr.len (hd EmptyString g2) + 1)%Z
      /\ greedy n rest
  | _ => True
  end.

(** A word as [str.split] yields it: not empty, and free of whitespace. *)
Definition token (t : string) : Prop :=
  pystr.truthy t = true /\ no_space t = true.

(** The lines [gs] are complete and [g] is the line being filled. *)
Definition wrap_inv (n : Z) (st : list string * string)
    (gs : list (list string)) (g : list string) : Prop :=
  st = (map line_of gs, line_of g) /\
  Forall (fits n) gs /\
  ((g = [] /\ gs = []) \/
   (Forall (fun t => pystr.truthy t = true) g /\ fits n g /\
    greedy n (gs ++ [g]))).

(** * Properties *)

(** ** The order of binary64 values

    [<] and [<=] on floats are the comparisons of [SpecFloat]; away from NaN
    they form a total preorder.  The three facts below are all the sorting
    and searching arguments need. *)

Ltac cmp_cases :=
  repeat match goal with
  | H : context [Pos.compare_cont Eq ?a ?b] |- _ =>
      change (Pos.compare_cont Eq a b) with (Pos.compare a b) in H
  | |- context [Pos.compare_cont Eq ?a ?b] =>
      change (Pos.compare_cont Eq a b) with (Pos.compare a b)
  | H : context [Z.compare ?a ?b] |- _ => destruct (Z.compare_spec a b)
  | |- context [Z.compare ?a ?b] => destruct (Z.compare_spec a b)
  | H : context [Pos.compare ?a ?b] |- _ => destruct (Pos.compare_spec a b)
  | |- context [Pos.compare ?a ?b] => destruct (Pos.compare_spec a b)
  end.

Ltac sf_order :=
  unfold SFleb, SFltb, SFcompare; intros;
  repeat match goal with
  | x : spec_float |- _ => destruct x
  | b : bool |- _ => destruct b
  end; simpl in *; try discriminate; try reflexivity;
  cmp_cases; subst; simpl in *; try discriminate; try reflexivity; try lia.

Lemma SFleb_ltb x y :
  sf_is_nan x = false -> sf_is_nan y = false ->
  SFleb x y = negb (SFltb y x).
Proof. sf_order. Qed.

Lemma SFltb_le_trans x m y :
  sf_is_nan y = false ->
  SFltb x m = true -> SFltb y m = false -> SFltb x y = true.
Proof. sf_order. Qed.

Lemma SFltb_neg_trans x m y :
  sf_is_nan m = false ->
  SFltb x m = false -> SFltb m y = false -> SFltb x y = false.
Proof. sf_order. Qed.

Lemma SFltb_irrefl x : SFltb x x = false.
Proof. sf_order. Qed.

Lemma SFltb_asym x y : SFltb x y = true -> SFltb y x = false.
Proof. sf_order. Qed.

Lemma SFleb_trans x y z :
  SFleb x y = true -> SFleb y z = true -> SFleb x z = true.
Proof. sf_order. Qed.

Lemma sf_is_nan_Prim2SF x : sf_is_nan (Prim2SF x) = is_nan x.
Proof.
  unfold Prim2SF. destruct (is_nan x); [reflexivity|].
  destruct (is_zero x); [reflexivity|].
  destruct (is_infinity x); [reflexivity|].
  destruct (Z.frexp x) as [r e].
  destruct (shr_fexp _ _ _ _ _) as [shr e'].
  destruct (shr_m shr); reflexivity.
Qed.

Lemma leb_ltb (x y : float) :
  is_nan x = false -> is_nan y = false ->
  (x <=? y)%float = negb (y <? x)%float.
Proof.
  intros Hx Hy. rewrite leb_spec, ltb_spec.
  apply SFleb_ltb; now rewrite sf_is_nan_Prim2SF.
Qed.

Lemma ltb_le_trans (x m y : float) :
  is_nan y = false ->
  (x <? m)%float = true -> (y <? m)%float = false -> (x <? y)%float = true.
Proof.
  intro Hy. rewrite !ltb_spec.
  apply SFltb_le_trans; now rewrite sf_is_nan_Prim2SF.
Qed.

Lemma ltb_neg_trans (x m y : float) :
  is_nan m = false ->
  (x <? m)%float = false -> (m <? y)%float = false -> (x <? y)%float = false.
Proof.
  intro Hm. rewrite !ltb_spec.
  apply SFltb_neg_trans; now rewrite sf_is_nan_Prim2SF.
Qed.

Lemma ltb_irrefl (x : float) : (x <? x)%float = false.
Proof. rewrite ltb_spec. apply SFltb_irrefl. Qed.

Lemma ltb_asym (x y : float) :
  (x <? y)%float = true -> (y <? x)%float = false.
Proof. rewrite !ltb_spec. apply SFltb_asym. Qed.

Lemma leb_trans (x y z : float) :
  (x <=? y)%float = true -> (y <=? z)%float = true -> (x <=? z)%float = true.
Proof. rewrite !leb_spec. apply SFleb_trans. Qed.

Lemma ltb_is_nan_l (x y : float) : (x <? y)%float = true -> is_nan x = false.
Proof.
  rewrite ltb_spec, <- sf_is_nan_Prim2SF.
  unfold SFltb, SFcompare. now destruct (Prim2SF x).
Qed.

Lemma ltb_is_nan_r (x y : float) : (x <? y)%float = true -> is_nan y = false.
Proof.
  rewrite ltb_spec, <- (sf_is_nan_Prim2SF y).
  unfold SFltb, SFcompare. destruct (Prim2SF x), (Prim2SF y); simpl; congruence.
Qed.

Lemma leb_is_nan_l (x y : float) : (x <=? y)%float = true -> is_nan x = false.
Proof.
  rewrite leb_spec, <- sf_is_nan_Prim2SF.
  unfold SFleb, SFcompare. now destruct (Prim2SF x).
Qed.

Lemma leb_is_nan_r (x y : float) : (x <=? y)%float = true -> is_nan y = false.
Proof.
  rewrite leb_spec, <- (sf_is_nan_Prim2SF y).
  unfold SFleb, SFcompare. destruct (Prim2SF x), (Prim2SF y); simpl; congruence.
Qed.

(** ** The ordered parallel map *)

Section PoolMap.
Context {A B : Type}.
Variable cs : nat.
Hypothesis cs_pos : 0 < cs.

Lemma get_tasks_nth (fuel : nat) : forall (l : list A) (i : nat),
  List.length l <= fuel ->
  nth i (get_tasks fuel cs l) [] = firstn cs (skipn (i * cs) l).
Proof.
  induction fuel as [|fuel IH]; intros l i Hl.
  - destruct l; [|simpl in Hl; lia].
    simpl. rewrite skipn_nil, firstn_nil. now destruct i.
  - simpl. destruct (firstn cs l) as [|x chunk] eqn:E.
    + destruct l as [|a l].
      * rewrite skipn_nil, firstn_nil. now destruct i.
      * apply (f_equal (@List.length A)) in E.
        rewrite length_firstn in E. simpl in E. lia.
    + destruct i as [|i]; [simpl; now rewrite E|].
      simpl nth. rewrite IH.
      * rewrite skipn_skipn. f_equal. f_equal. lia.
      * rewrite length_skipn.
        assert (List.length l <> 0)
          by (destruct l; [now rewrite firstn_nil in E|discriminate]).
        lia.
Qed.

Lemma get_tasks_length (fuel : nat) : forall (l : list A) (i : nat),
  List.length l <= fuel ->
  i < List.length (get_tasks fuel cs l) <-> i * cs < List.length l.
Proof.
  induction fuel as [|fuel IH]; intros l i Hl.
  - destruct l; [|simpl in Hl; lia]. simpl. lia.
  - simpl. destruct (firstn cs l) as [|x chunk] eqn:E.
    + destruct l as [|a l]; [simpl; lia|].
      apply (f_equal (@List.length A)) in E.
      rewrite length_firstn in E. simpl in E. lia.
    + destruct i as [|i].
      * destruct l; [now rewrite firstn_nil in E|simpl; lia].
      * simpl List.length.
        assert (Hs : List.length (skipn cs l) <= fuel).
        { rewrite length_skipn.
        assert (List.length l <> 0)
          by (destruct l; [now rewrite firstn_nil in E|discriminate]).
        lia. }
        specialize (IH (skipn cs l) i Hs). rewrite length_skipn in IH.
        simpl. lia.
Qed.

Lemma length_set_chunk (v : list (option B)) (i : nat) (r : list B) :
  List.length r = Nat.min cs (List.length v - i * cs) ->
  List.length (set_chunk v cs i r) = List.length v.
Proof.
  intro Hr. unfold set_chunk.
  replace ((i + 1) * cs) with (i * cs + cs) by lia.
  rewrite !length_app, length_map, length_firstn, length_skipn. lia.
Qed.

Lemma nth_error_set_chunk (v : list (option B)) (i : nat) (r : list B) (j : nat) :
  List.length r = Nat.min cs (List.length v - i * cs) ->
  nth_error (set_chunk v cs i r) j =
    if (i * cs <=? j) && (j <? i * cs + cs)
    then option_map Some (nth_error r (j - i * cs))
    else nth_error v j.
Proof.
  intro Hr.
  destruct (Nat.lt_ge_cases j (List.length v)) as [Hj|Hj].
  - unfold set_chunk.
    replace ((i + 1) * cs) with (i * cs + cs) by lia.
    destruct (Nat.leb_spec (i * cs) j) as [H1|H1]; simpl.
    + assert (Hf : List.length (firstn (i * cs) v) = i * cs)
        by (rewrite length_firstn; lia).
      rewrite nth_error_app2 by lia. rewrite Hf.
      destruct (Nat.ltb_spec j (i * cs + cs)) as [H2|H2].
      * rewrite nth_error_app1 by (rewrite length_map; lia).
        apply nth_error_map.
      * rewrite nth_error_app2 by (rewrite length_map; lia).
        rewrite length_map, nth_error_skipn. f_equal. lia.
    + rewrite nth_error_app1 by (rewrite length_firstn; lia).
      rewrite nth_error_firstn.
      destruct (Nat.ltb_spec j (i * cs)); [reflexivity|lia].
  - assert (nth_error (set_chunk v cs i r) j = None) as ->.
    { apply nth_error_None. rewrite length_set_chunk; auto. }
    destruct ((i * cs <=? j) && (j <? i * cs + cs)) eqn:E.
    + apply andb_prop in E as [E1 E2].
      apply Nat.leb_le in E1.
      assert (nth_error r (j - i * cs) = None) as ->; [|reflexivity].
      apply nth_error_None. lia.
    + symmetry. now apply nth_error_None.
Qed.

Variable func : A -> B.
Variable iterable : list A.

Lemma div_chunk (i j : nat) :
  (i * cs <=? j) && (j <? i * cs + cs) = (j / cs =? i).
Proof.
  pose proof (Nat.div_mod_eq j cs) as E.
  pose proof (Nat.mod_upper_bound j cs ltac:(lia)) as U.
  destruct (Nat.eqb_spec (j / cs) i) as [<-|N].
  - apply andb_true_intro; split; [apply Nat.leb_le|apply Nat.ltb_lt]; nia.
  - apply andb_false_iff.
    destruct (Nat.lt_ge_cases j (i * cs)) as [H|H];
      [left; apply Nat.leb_gt; lia|right; apply Nat.ltb_ge].
    destruct (Nat.lt_ge_cases j (i * cs + cs)) as [H'|H']; [|lia].
    exfalso. apply N. symmetry.
    apply (Nat.div_unique j cs i (j - i * cs)); lia.
Qed.

Lemma slots_inv_init : slots_inv cs func iterable [] (repeat None (List.length iterable)).
Proof.
  split; [apply repeat_length|]. intro j. unfold slot. simpl.
  destruct (nth_error iterable j) eqn:E; simpl.
  - apply nth_error_repeat. apply nth_error_Some. congruence.
  - apply nth_error_None. rewrite repeat_length. now apply nth_error_None.
Qed.

Lemma slots_inv_step (done : list nat) (value : list (option B)) (i : nat) :
  slots_inv cs func iterable done value ->
  slots_inv cs func iterable (i :: done)
    (set_chunk value cs i
       (map func (nth i (get_tasks (List.length iterable) cs iterable) []))).
Proof.
  intros [Hlen Hnth].
  rewrite get_tasks_nth by lia.
  assert (Hr : List.length (map func (firstn cs (skipn (i * cs) iterable))) =
               Nat.min cs (List.length value - i * cs)).
  { rewrite length_map, length_firstn, length_skipn. lia. }
  split; [now rewrite length_set_chunk|]. intro j.
  rewrite nth_error_set_chunk by exact Hr.
  unfold slot. simpl existsb. rewrite div_chunk.
  destruct (Nat.eqb_spec (j / cs) i) as [E|N].
  - simpl. rewrite nth_error_map, nth_error_firstn.
    pose proof (div_chunk i j) as D. rewrite E, Nat.eqb_refl in D.
    apply andb_prop in D as [D1 D2].
    apply Nat.leb_le in D1. apply Nat.ltb_lt in D2.
    destruct (Nat.ltb_spec (j - i * cs) cs); [|lia].
    rewrite nth_error_skipn. replace (i * cs + (j - i * cs)) with j by lia.
    now destruct (nth_error iterable j).
  - simpl. apply Hnth.
Qed.

Lemma slots_inv_fold (order : list nat) : forall done value,
  slots_inv cs func iterable done value ->
  slots_inv cs func iterable (rev order ++ done)
    (fold_left
       (fun value i =>
          set_chunk value cs i
            (map func (nth i (get_tasks (List.length iterable) cs iterable) [])))
       order value).
Proof.
  induction order as [|i order IH]; intros done value H; [exact H|].
  simpl. rewrite <- app_assoc. simpl. apply IH. now apply slots_inv_step.
Qed.

Lemma all_filled_map (l : list A) :
  all_filled (map (fun x => Some (func x)) l) = Some (map func l).
Proof. induction l as [|x l IH]; simpl; [reflexivity|now rewrite IH]. Qed.

Lemma pool_map_complete (order : list nat) :
  complete_run iterable cs order ->
  pool_map func iterable cs order = Some (map func iterable).
Proof.
  intro Hrun. unfold pool_map.
  pose proof (slots_inv_fold order [] _ slots_inv_init) as [Hlen Hnth].
  rewrite app_nil_r in Hnth.
  set (value := fold_left _ order _) in *.
  assert (value = map (fun x => Some (func x)) iterable) as ->;
    [|apply all_filled_map].
  apply nth_error_ext. intro j. rewrite Hnth, nth_error_map.
  destruct (nth_error iterable j) eqn:E; [|reflexivity]. simpl.
  unfold slot.
  assert (In (j / cs) (rev order)) as Hin.
  { apply in_rev. rewrite rev_involutive.
    apply (Permutation_in _ (Permutation_sym Hrun)).
    apply in_seq. split; [lia|]. simpl.
    apply get_tasks_length; [lia|].
    assert (j < List.length iterable) by (apply nth_error_Some; congruence).
    pose proof (Nat.div_mod_eq j cs). nia. }
  destruct (existsb (Nat.eqb (j / cs)) (rev order)) eqn:X; [reflexivity|].
  exfalso. rewrite <- not_true_iff_false in X. apply X.
  apply existsb_exists. exists (j / cs). split; [exact Hin|apply Nat.eqb_refl].
Qed.

End PoolMap.

(** ** Preparing the words *)

Lemma prepare_word_eq (acc : list WordInfo.t) (k : Z) (w : Word.t) :
  prepare_word (acc, k) w =
    if nonblank w
    then (acc ++ number_from k [w], (k + 1)%Z)
    else (acc, k).
Proof. reflexivity. Qed.

Lemma fold_prepare_word (ws : list Word.t) : forall acc k,
  fold_left prepare_word ws (acc, k) =
    (acc ++ number_from k (filter nonblank ws),
     (k + Z.of_nat (List.length (filter nonblank ws)))%Z).
Proof.
  induction ws as [|w ws IH]; intros acc k.
  - simpl. now rewrite app_nil_r, Z.add_0_r.
  - cbn [fold_left filter]. rewrite prepare_word_eq.
    destruct (nonblank w).
    + rewrite IH. cbn [number_from List.length]. rewrite <- app_assoc.
      f_equal. lia.
    + apply IH.
Qed.

Lemma number_from_app (l1 l2 : list Word.t) : forall k,
  number_from k (l1 ++ l2) =
    number_from k l1 ++ number_from (k + Z.of_nat (List.length l1)) l2.
Proof.
  induction l1 as [|w l1 IH]; intro k.
  - simpl. now rewrite Z.add_0_r.
  - cbn [app number_from List.length]. rewrite IH. do 3 f_equal. lia.
Qed.

Lemma fold_prepare_segments (segments : list Segment.t) : forall acc k,
  fold_left (fun st segment => fold_left prepare_word (Segment.words segment) st)
    segments (acc, k) =
    (acc ++ number_from k (filter nonblank (words_of segments)),
     (k + Z.of_nat (List.length (filter nonblank (words_of segments))))%Z).
Proof.
  induction segments as [|seg segments IH]; intros acc k.
  - simpl. now rewrite app_nil_r, Z.add_0_r.
  - cbn [fold_left words_of flat_map]. fold (words_of segments).
    rewrite fold_prepare_word, IH, filter_app, length_app, number_from_app.
    rewrite <- app_assoc. f_equal. lia.
Qed.

Lemma prepare_words_spec (segments : list Segment.t) :
  prepare_words segments = number_from 0 (filter nonblank (words_of segments)).
Proof. unfold prepare_words. now rewrite fold_prepare_segments. Qed.

Lemma length_number_from (ws : list Word.t) : forall k,
  List.length (number_from k ws) = List.length ws.
Proof. induction ws; intro k; simpl; [reflexivity|now rewrite IHws]. Qed.

Lemma number_from_index (ws : list Word.t) : forall k i a,
  nth_error (number_from k ws) i = Some a ->
  WordInfo.word_index a = (k + Z.of_nat i)%Z.
Proof.
  induction ws as [|w ws IH]; intros k i a; destruct i; simpl; try discriminate.
  - intros [= <-]. simpl. lia.
  - intro H. rewrite (IH _ _ _ H). lia.
Qed.

(** ** The worker function keeps the word *)

Lemma find_speaker_keeps (w : WordInfo.t) (turns : list Turn.t) :
  WordInfo.start (_find_speaker_for_word w turns) = WordInfo.start w /\
  WordInfo.end_ (_find_speaker_for_word w turns) = WordInfo.end_ w /\
  WordInfo.text (_find_speaker_for_word w turns) = WordInfo.text w /\
  WordInfo.word_index (_find_speaker_for_word w turns) = WordInfo.word_index w.
Proof. unfold _find_speaker_for_word. destruct turns; simpl; auto. Qed.

(** ** The pool parameters are always legal *)

Lemma num_workers_for_pos (cfg : config.t) (total_words : Z) :
  (1 <= num_workers_for cfg total_words)%Z.
Proof. unfold num_workers_for. destruct (_ && _); lia. Qed.

Lemma chunksize_for_pos (total_words num_workers : Z) :
  (1 <= chunksize_for total_words num_workers)%Z.
Proof. unfold chunksize_for. destruct (_ >? _)%Z; lia. Qed.

Lemma chunksize_of_pos (cfg : config.t) (segments : list Segment.t) :
  0 < chunksize_of cfg segments.
Proof.
  unfold chunksize_of.
  pose proof (chunksize_for_pos
    (Z.of_nat (List.length (prepare_words segments)))
    (num_workers_for cfg (Z.of_nat (List.length (prepare_words segments))))).
  lia.
Qed.

(** ** What a call returns *)

Lemma align_unfold (cfg : config.t) (pool : pool_run)
    (segments : list Segment.t) (turns : list Turn.t) :
  align_speech_and_speakers cfg pool segments turns =
    match prepare_words segments with
    | [] => (turns, Some [])
    | _ :: _ =>
        (sort_by_start turns,
         match pool with
         | Completes order =>
             pool_map
               (fun w => _find_speaker_for_word w (sort_by_start turns))
               (prepare_words segments) (chunksize_of cfg segments) order
         | Raises _ => Some []
         end)
    end.
Proof.
  unfold align_speech_and_speakers, chunksize_of.
  destruct (prepare_words segments) as [|w ws]; [reflexivity|].
  destruct turns as [|t turns]; destruct pool as [order|[]]; reflexivity.
Qed.

Lemma align_completes (cfg : config.t) (order : list nat)
    (segments : list Segment.t) (turns : list Turn.t) :
  complete_run (prepare_words segments) (chunksize_of cfg segments) order ->
  snd (align_speech_and_speakers cfg (Completes order) segments turns) =
    Some (map (fun w => _find_speaker_for_word w (sort_by_start turns))
            (prepare_words segments)).
Proof.
  intro Hrun. rewrite align_unfold.
  destruct (prepare_words segments) as [|w ws] eqn:E; [reflexivity|].
  simpl snd. rewrite <- E in *.
  apply pool_map_complete; [apply chunksize_of_pos|exact Hrun].
Qed.

(** C1. When the pool completes, the result has one element per word whose
    trimmed text is not empty, in the order of the input, and each element
    carries the start, the end and the trimmed text of its word. *)
Theorem align_keeps_nonblank_words_in_order (cfg : config.t)
    (order : list nat) (segments : list Segment.t) (turns : list Turn.t) :
  complete_run (prepare_words segments) (chunksize_of cfg segments) order ->
  exists result,
    snd (align_speech_and_speakers cfg (Completes order) segments turns)
      = Some result /\
    List.length result = List.length (filter nonblank (words_of segments)) /\
    map (fun a => (WordInfo.start a, WordInfo.end_ a, WordInfo.text a)) result =
      map (fun w => (Word.start w, Word.end_ w, pystr.strip (Word.word w)))
        (filter nonblank (words_of segments)).
Proof.
  intro Hrun. eexists. split; [now apply align_completes|].
  rewrite prepare_words_spec. split.
  - now rewrite length_map, length_number_from.
  - rewrite map_map.
    generalize 0%Z. induction (filter nonblank (words_of segments)) as [|w l IH];
      intro k; [reflexivity|].
    cbn [number_from map]. rewrite IH. f_equal.
    destruct (find_speaker_keeps
                (WordInfo.mk (Word.start w) (Word.end_ w)
                   (pystr.strip (Word.word w)) k None)
                (sort_by_start turns)) as (-> & -> & -> & _).
    reflexivity.
Qed.

Lemma align_keeps_nonblank_words_in_order_witness :
  exists result,
    snd (align_speech_and_speakers demo_cfg (Completes [1; 0]) demo_segments
           demo_turns) = Some result /\
    List.length result =
      List.length (filter nonblank (words_of demo_segments)) /\
    map (fun a => (WordInfo.start a, WordInfo.end_ a, WordInfo.text a)) result =
      map (fun w => (Word.start w, Word.end_ w, pystr.strip (Word.word w)))
        (filter nonblank (words_of demo_segments)).
Proof.
  apply (align_keeps_nonblank_words_in_order demo_cfg [1; 0] demo_segments
           demo_turns).
  vm_compute. apply perm_swap.
Defined.

(** C2 (as stated, refuted).  A pool failure on one word and a call with no
    word at all hand the caller the same value, the empty list. *)
Lemma align_failure_looks_like_no_words :
  snd (align_speech_and_speakers demo_cfg (Raises OtherException)
         demo_segments demo_turns)
  = snd (align_speech_and_speakers demo_cfg (Completes []) [] demo_turns).
Proof. reflexivity. Qed.

(** C2 (amended).  Whatever exception leaves the pool, the call returns the
    empty list and no partial result; that is also what a call with no
    segments returns, however the pool behaves. *)
Theorem align_failure_returns_empty_list (cfg : config.t) (e : pool_exception)
    (pool : pool_run) (segments : list Segment.t) (turns : list Turn.t) :
  snd (align_speech_and_speakers cfg (Raises e) segments turns) = Some [] /\
  snd (align_speech_and_speakers cfg pool [] turns) = Some [].
Proof.
  rewrite !align_unfold. split; [|reflexivity].
  now destruct (prepare_words segments).
Qed.

(** C6.  For every configuration, hence every worker count and chunk size
    the function can choose, and every order in which the batches complete,
    the call returns what mapping [_find_speaker_for_word] over the prepared
    words one after the other returns; and [pool.map] itself does so for
    every chunk size of at least 1. *)
Theorem parallel_alignment_is_sequential_map (cfg : config.t)
    (order : list nat) (segments : list Segment.t) (turns : list Turn.t) :
  complete_run (prepare_words segments) (chunksize_of cfg segments) order ->
  snd (align_speech_and_speakers cfg (Completes order) segments turns) =
    Some (map (fun w => _find_speaker_for_word w (sort_by_start turns))
            (prepare_words segments)) /\
  forall (chunksize : nat) (order' : list nat),
    0 < chunksize ->
    complete_run (prepare_words segments) chunksize order' ->
    pool_map (fun w => _find_speaker_for_word w (sort_by_start turns))
      (prepare_words segments) chunksize order' =
    snd (align_speech_and_speakers cfg (Completes order) segments turns).
Proof.
  intro Hrun. split; [now apply align_completes|].
  intros chunksize order' Hpos Hrun'.
  rewrite align_completes by exact Hrun. now apply pool_map_complete.
Qed.

Lemma parallel_alignment_is_sequential_map_witness :
  snd (align_speech_and_speakers demo_cfg (Completes [1; 0]) demo_segments
         demo_turns) =
    Some (map (fun w => _find_speaker_for_word w (sort_by_start demo_turns))
            (prepare_words demo_segments)) /\
  forall (chunksize : nat) (order' : list nat),
    0 < chunksize ->
    complete_run (prepare_words demo_segments) chunksize order' ->
    pool_map (fun w => _find_speaker_for_word w (sort_by_start demo_turns))
      (prepare_words demo_segments) chunksize order' =
    snd (align_speech_and_speakers demo_cfg (Completes [1; 0]) demo_segments
           demo_turns).
Proof.
  apply (parallel_alignment_is_sequential_map demo_cfg [1; 0] demo_segments
           demo_turns).
  vm_compute. apply perm_swap.
Defined.

(** ** Sorting the turns *)

Lemma insert_turn_perm (t : Turn.t) (l : list Turn.t) :
  Permutation (t :: l) (insert_turn t l).
Proof.
  induction l as [|u l IH]; simpl; [apply Permutation_refl|].
  destruct (Turn.start u <? Turn.start t)%float; [|apply Permutation_refl].
  eapply perm_trans; [apply perm_swap|]. now apply perm_skip.
Qed.

Lemma sort_by_start_perm (l : list Turn.t) : Permutation l (sort_by_start l).
Proof.
  induction l as [|t l IH]; simpl; [constructor|].
  eapply perm_trans; [|apply insert_turn_perm]. now apply perm_skip.
Qed.

Lemma insert_turn_sorted (t : Turn.t) (l : list Turn.t) :
  Forall start_not_nan l ->
  StronglySorted start_ordered l ->
  StronglySorted start_ordered (insert_turn t l).
Proof.
  intros Hnan Hs. induction Hs as [|u l Hs IH Hu]; simpl.
  - repeat constructor.
  - inversion Hnan as [|? ? Hnu Hnl]; subst.
    destruct (Turn.start u <? Turn.start t)%float eqn:E.
    + constructor; [now apply IH|].
      apply (Permutation_Forall (insert_turn_perm t l)).
      constructor; [|exact Hu]. unfold start_ordered. now apply ltb_asym.
    + constructor; [now constructor|].
      constructor; [exact E|].
      rewrite Forall_forall in Hu |- *. intros x Hx.
      unfold start_ordered in *.
      apply (ltb_neg_trans _ (Turn.start u)); [exact Hnu|now apply Hu|exact E].
Qed.

Lemma sort_by_start_sorted (l : list Turn.t) :
  Forall start_not_nan l -> StronglySorted start_ordered (sort_by_start l).
Proof.
  induction l as [|t l IH]; intro Hnan; simpl; [constructor|].
  inversion Hnan; subst. apply insert_turn_sorted; [|now apply IH].
  now apply (Permutation_Forall (sort_by_start_perm l)).
Qed.

Lemma sort_by_start_of_sorted (l : list Turn.t) :
  StronglySorted start_ordered l -> sort_by_start l = l.
Proof.
  induction 1 as [|t l Hs IH Ht]; simpl; [reflexivity|].
  rewrite IH. destruct l as [|u l]; [reflexivity|]. simpl.
  inversion Ht as [|? ? Hu _]; subst. unfold start_ordered in Hu.
  now rewrite Hu.
Qed.

Lemma sorted_nth (l : list Turn.t) :
  StronglySorted start_ordered l ->
  forall i j ti tj, i <= j ->
    nth_error l i = Some ti -> nth_error l j = Some tj ->
    start_ordered ti tj.
Proof.
  induction 1 as [|t l Hs IH Ht]; intros i j ti tj Hij Hi Hj.
  - now destruct i.
  - destruct i as [|i], j as [|j]; simpl in *; try lia.
    + injection Hi as <-. injection Hj as <-. apply ltb_irrefl.
    + injection Hi as <-. rewrite Forall_forall in Ht.
      apply Ht. now apply nth_error_In with j.
    + apply (IH i j); auto. lia.
Qed.

(** ** The binary search *)

(** The fuel does not decide the result: any amount that covers the
    interval gives the same index. *)
Lemma bisect_loop_fuel (a : list float) (x : float) (fuel : nat) :
  forall fuel' lo hi, hi - lo <= fuel -> hi - lo <= fuel' ->
  bisect_loop fuel a x lo hi = bisect_loop fuel' a x lo hi.
Proof.
  induction fuel as [|fuel IH]; intros fuel' lo hi H H'.
  - destruct fuel' as [|fuel']; [reflexivity|]. cbn [bisect_loop].
    destruct (Nat.ltb_spec lo hi); [lia|reflexivity].
  - destruct fuel' as [|fuel']; cbn [bisect_loop];
      destruct (Nat.ltb_spec lo hi) as [Hlt|Hge]; try reflexivity; try lia.
    assert (Hmid : lo <= (lo + hi) / 2 < hi).
    { pose proof (Nat.div_mod_eq (lo + hi) 2).
      pose proof (Nat.mod_upper_bound (lo + hi) 2). lia. }
    destruct (x <? nth ((lo + hi) / 2) a nan)%float; apply IH; lia.
Qed.

Section Bisect.
Variable a : list float.
Variable x : float.
Hypothesis a_not_nan : forall i, i < List.length a -> is_nan (nth i a nan) = false.
Hypothesis a_sorted : forall i j, i <= j -> j < List.length a ->
  (nth j a nan <? nth i a nan)%float = false.

Lemma bisect_loop_spec (fuel : nat) : forall lo hi,
  lo <= hi -> hi <= List.length a -> hi - lo <= fuel ->
  (forall i, i < lo -> (x <? nth i a nan)%float = false) ->
  (forall i, hi <= i -> i < List.length a -> (x <? nth i a nan)%float = true) ->
  let r := bisect_loop fuel a x lo hi in
  r <= List.length a /\
  (forall i, i < r -> (x <? nth i a nan)%float = false) /\
  (forall i, r <= i -> i < List.length a -> (x <? nth i a nan)%float = true).
Proof.
  induction fuel as [|fuel IH]; intros lo hi Hle Hhi Hfuel Hlo Hup;
    cbn [bisect_loop]; cbv zeta.
  - assert (lo = hi) by lia. subst. repeat split; auto.
  - destruct (Nat.ltb_spec lo hi) as [Hlt|Hge].
    + assert (Hmid : lo <= (lo + hi) / 2 < hi).
      { pose proof (Nat.div_mod_eq (lo + hi) 2).
        pose proof (Nat.mod_upper_bound (lo + hi) 2). lia. }
      destruct (x <? nth ((lo + hi) / 2) a nan)%float eqn:E.
      * apply IH; try lia; auto.
        intros i Hi Hlen.
        apply (ltb_le_trans _ (nth ((lo + hi) / 2) a nan));
          [now apply a_not_nan|exact E|now apply a_sorted].
      * apply IH; try lia; auto.
        intros i Hi.
        apply (ltb_neg_trans _ (nth ((lo + hi) / 2) a nan));
          [apply a_not_nan; lia|exact E|apply a_sorted; lia].
    + assert (lo = hi) by lia. subst. repeat split; auto.
Qed.

Lemma bisect_right_spec :
  let r := bisect_right a x in
  r <= List.length a /\
  (forall i, i < r -> (x <? nth i a nan)%float = false) /\
  (forall i, r <= i -> i < List.length a -> (x <? nth i a nan)%float = true).
Proof.
  unfold bisect_right. apply bisect_loop_spec; try lia.
Qed.

End Bisect.

(** ** The speaker of a word on a sorted table *)

Lemma nth_map_start (l : list Turn.t) (i : nat) (t : Turn.t) :
  nth_error l i = Some t -> nth i (map Turn.start l) nan = Turn.start t.
Proof.
  intro H. rewrite (nth_indep _ nan (Turn.start t)).
  - rewrite map_nth. f_equal. now apply nth_error_nth.
  - rewrite length_map. apply nth_error_Some. congruence.
Qed.

(** The body of [_find_speaker_for_word] also describes the early return on
    an empty table. *)
Lemma find_speaker_body (w : WordInfo.t) (table : list Turn.t) :
  WordInfo.speaker (_find_speaker_for_word w table) =
    let m := midpoint (WordInfo.start w) (WordInfo.end_ w) in
    let p := (Z.of_nat (bisect_right (map Turn.start table) m) - 1)%Z in
    Some
      match (if (p >=? 0)%Z then speaker_at table p m else None) with
      | Some s => s
      | None =>
          match (if (p + 1 <? Z.of_nat (List.length table))%Z
                 then speaker_at table (p + 1) m else None) with
          | Some s => s
          | None => "UNKNOWN"%string
          end
      end.
Proof. destruct table; reflexivity. Qed.

Section SortedTable.
Variable table : list Turn.t.
Variable m : float.
Hypothesis table_not_nan : Forall start_not_nan table.
Hypothesis table_sorted : StronglySorted start_ordered table.

Lemma table_bisect :
  let r := bisect_right (map Turn.start table) m in
  r <= List.length table /\
  (forall i t, i < r -> nth_error table i = Some t ->
     (m <? Turn.start t)%float = false) /\
  (forall i t, r <= i -> nth_error table i = Some t ->
     (m <? Turn.start t)%float = true).
Proof.
  destruct (bisect_right_spec (map Turn.start table) m) as (Hr & Hlo & Hhi).
  - intros i Hi. rewrite length_map in Hi.
    destruct (nth_error table i) as [t|] eqn:E;
      [|apply nth_error_None in E; lia].
    rewrite (nth_map_start _ _ _ E).
    rewrite Forall_forall in table_not_nan. apply table_not_nan.
    now apply nth_error_In with i.
  - intros i j Hij Hj. rewrite length_map in Hj.
    destruct (nth_error table i) as [ti|] eqn:Ei;
      [|apply nth_error_None in Ei; lia].
    destruct (nth_error table j) as [tj|] eqn:Ej;
      [|apply nth_error_None in Ej; lia].
    rewrite (nth_map_start _ _ _ Ei), (nth_map_start _ _ _ Ej).
    now apply (sorted_nth table table_sorted i j).
  - rewrite length_map in Hr. split; [exact Hr|]. split.
    + intros i t Hi E. rewrite <- (nth_map_start _ _ _ E). now apply Hlo.
    + intros i t Hi E. rewrite <- (nth_map_start _ _ _ E). apply Hhi; [exact Hi|].
      rewrite length_map. apply nth_error_Some. congruence.
Qed.

Lemma speaker_at_after (i : nat) :
  bisect_right (map Turn.start table) m <= i ->
  speaker_at table (Z.of_nat i) m = None.
Proof.
  intro Hi. unfold speaker_at. rewrite Nat2Z.id.
  destruct (nth_error table i) as [t|] eqn:E; [|reflexivity].
  destruct table_bisect as (_ & _ & Hhi).
  specialize (Hhi i t Hi E).
  unfold covers. rewrite leb_ltb, Hhi; [reflexivity| |].
  - now apply ltb_is_nan_r in Hhi.
  - now apply ltb_is_nan_l in Hhi.
Qed.

(** On a sorted table the search settles on the last turn that starts at or
    before the midpoint; the word gets its speaker when that turn covers the
    midpoint, and "UNKNOWN" otherwise.  The second probe never succeeds. *)
Lemma find_speaker_sorted (w : WordInfo.t) :
  m = midpoint (WordInfo.start w) (WordInfo.end_ w) ->
  WordInfo.speaker (_find_speaker_for_word w table) =
    Some
      match bisect_right (map Turn.start table) m with
      | O => "UNKNOWN"%string
      | S p =>
          match nth_error table p with
          | Some c => if covers c m then Turn.speaker c else "UNKNOWN"%string
          | None => "UNKNOWN"%string
          end
      end.
Proof.
  intro Hm. rewrite find_speaker_body. cbv zeta. rewrite <- Hm. f_equal.
  set (r := bisect_right (map Turn.start table) m).
  pose proof (speaker_at_after r (Nat.le_refl _)) as Hnext.
  destruct r as [|p] eqn:Er.
  - replace (Z.of_nat 0 - 1 + 1)%Z with (Z.of_nat 0) by lia.
    change (Z.of_nat 0 - 1 >=? 0)%Z with false. cbv iota.
    rewrite Hnext. now destruct (_ <? _)%Z.
  - replace (Z.of_nat (S p) - 1)%Z with (Z.of_nat p) by lia.
    replace (Z.of_nat p + 1)%Z with (Z.of_nat (S p)) by lia.
    rewrite Hnext.
    destruct (Z.geb_spec (Z.of_nat p) 0) as [_|]; [|lia].
    unfold speaker_at at 1. rewrite Nat2Z.id.
    destruct (nth_error table p) as [c|]; [|now destruct (_ <? _)%Z].
    destruct (covers c m); [reflexivity|now destruct (_ <? _)%Z].
Qed.

(** A turn that starts at or before the midpoint, and after which no turn
    other than equally good ones starts at or before the midpoint, decides
    the speaker. *)
Lemma find_speaker_latest (w : WordInfo.t) (t : Turn.t) :
  m = midpoint (WordInfo.start w) (WordInfo.end_ w) ->
  In t table -> covers t m = true ->
  (forall u, In u table -> (Turn.start u <=? m)%float = true ->
     (Turn.start u <? Turn.start t)%float = true \/
     (covers u m = true /\ Turn.speaker u = Turn.speaker t)) ->
  WordInfo.speaker (_find_speaker_for_word w table) = Some (Turn.speaker t).
Proof.
  intros Hm Hin Hcov Hothers. rewrite (find_speaker_sorted w Hm).
  destruct table_bisect as (Hr & Hlo & Hhi).
  apply andb_prop in Hcov as Hc. destruct Hc as [Hstart Hend].
  assert (Hmn : is_nan m = false) by now apply leb_is_nan_r in Hstart.
  assert (Htn : is_nan (Turn.start t) = false)
    by now apply leb_is_nan_l in Hstart.
  destruct (In_nth_error _ _ Hin) as [k Hk].
  assert (Hkr : k < bisect_right (map Turn.start table) m).
  { destruct (Nat.lt_ge_cases k (bisect_right (map Turn.start table) m))
      as [H|H]; [exact H|].
    specialize (Hhi k t H Hk). rewrite leb_ltb, Hhi in Hstart by assumption.
    discriminate. }
  destruct (bisect_right (map Turn.start table) m) as [|p] eqn:Er; [lia|].
  destruct (nth_error table p) as [c|] eqn:Ec;
    [|apply nth_error_None in Ec; lia].
  assert (Hcm : (Turn.start c <=? m)%float = true).
  { rewrite leb_ltb; [now rewrite (Hlo p c (Nat.lt_succ_diag_r p) Ec)| |exact Hmn].
    rewrite Forall_forall in table_not_nan. apply table_not_nan.
    now apply nth_error_In with p. }
  assert (Hord : (Turn.start c <? Turn.start t)%float = false).
  { apply (sorted_nth table table_sorted k p t c); [lia|exact Hk|exact Ec]. }
  destruct (Hothers c (nth_error_In _ _ Ec) Hcm) as [Hlt|[Hcc Hsp]].
  - congruence.
  - now rewrite Hcc, Hsp.
Qed.

End SortedTable.

(** ** The caller's list of turns *)

Lemma sorted_start_le (l : list Turn.t) :
  Forall start_not_nan l ->
  StronglySorted start_ordered l -> StronglySorted start_le l.
Proof.
  intros Hnan Hs. induction Hs as [|t l Hs IH Ht]; [constructor|].
  inversion Hnan as [|? ? Hnt Hnl]; subst.
  constructor; [now apply IH|].
  rewrite Forall_forall in Ht, Hnl |- *. intros u Hu.
  unfold start_le. rewrite leb_ltb; [|exact Hnt|now apply Hnl].
  now rewrite (Ht u Hu).
Qed.

(** C3 (as stated, refuted).  With one word to align, the caller's list of
    two turns given in descending order of start comes back reordered. *)
Lemma align_reorders_the_callers_turns :
  let turns := [Turn.mk 1.5 2.5 "SPEAKER_2"; Turn.mk 0 1.5 "SPEAKER_1"] in
  let after :=
    fst (align_speech_and_speakers demo_cfg (Completes [1; 0]) demo_segments
           turns) in
  after = [Turn.mk 0 1.5 "SPEAKER_1"; Turn.mk 1.5 2.5 "SPEAKER_2"] /\
  after <> turns.
Proof. split; [reflexivity|]. intro H. vm_compute in H. discriminate. Qed.

(** C3 (amended).  The function sorts the caller's own list in place.  After
    the call the caller's list holds the same turns; when there was a word
    to align it is in ascending order of start, however the pool behaved;
    it is unchanged when there was no word to align, and when it was in
    ascending order already. *)
Theorem align_sorts_the_callers_turns_in_place (cfg : config.t)
    (pool : pool_run) (segments : list Segment.t) (turns : list Turn.t) :
  Forall start_not_nan turns ->
  let after := fst (align_speech_and_speakers cfg pool segments turns) in
  Permutation turns after /\
  (prepare_words segments <> [] -> StronglySorted start_le after) /\
  (prepare_words segments = [] -> after = turns) /\
  (StronglySorted start_ordered turns -> after = turns).
Proof.
  intros Hnan after. subst after. rewrite align_unfold.
  destruct (prepare_words segments) as [|w ws]; simpl fst.
  - repeat split; auto; congruence.
  - split; [apply sort_by_start_perm|]. split; [|split].
    + intros _. apply sorted_start_le.
      * now apply (Permutation_Forall (sort_by_start_perm turns)).
      * now apply sort_by_start_sorted.
    + discriminate.
    + apply sort_by_start_of_sorted.
Qed.

Lemma align_sorts_the_callers_turns_in_place_witness :
  let after :=
    fst (align_speech_and_speakers demo_cfg (Raises TimeoutError)
           demo_segments demo_turns) in
  Permutation demo_turns after /\
  (prepare_words demo_segments <> [] -> StronglySorted start_le after) /\
  (prepare_words demo_segments = [] -> after = demo_turns) /\
  (StronglySorted start_ordered demo_turns -> after = demo_turns).
Proof.
  apply (align_sorts_the_callers_turns_in_place demo_cfg (Raises TimeoutError)
           demo_segments demo_turns).
  repeat constructor.
Defined.

(** ** Which turn a word gets *)

(** C4 (as stated, refuted).  The word [3, 7] lies inside the turn [0, 10]
    of A and inside no other turn, yet it gets the speaker of the turn
    [4, 6] of B, which starts later and covers the midpoint 5. *)
Lemma word_inside_one_turn_gets_another_speaker :
  let w := word 3 7 in
  let A := Turn.mk 0 10 "A" in
  let B := Turn.mk 4 6 "B" in
  inside w A = true /\ inside w B = false /\
  WordInfo.speaker (_find_speaker_for_word w (sort_by_start [A; B]))
    = Some "B"%string.
Proof. repeat split. Qed.

(** C4 (amended).  A word whose interval lies inside a turn [t], and whose
    midpoint as computed lies at or after the word's start and strictly
    before [t]'s end, gets [t]'s speaker provided every other turn starts
    strictly before [t] does or strictly after the midpoint. *)
Theorem word_inside_turn_gets_its_speaker (w : WordInfo.t)
    (turns : list Turn.t) (t : Turn.t) :
  let m := midpoint (WordInfo.start w) (WordInfo.end_ w) in
  Forall start_not_nan turns ->
  In t turns ->
  inside w t = true ->
  (WordInfo.start w <=? m)%float = true ->
  (m <? Turn.end_ t)%float = true ->
  (forall u, In u turns ->
     u = t \/ (Turn.start u <? Turn.start t)%float = true
     \/ (m <? Turn.start u)%float = true) ->
  WordInfo.speaker (_find_speaker_for_word w (sort_by_start turns))
    = Some (Turn.speaker t).
Proof.
  intros m Hnan Hin Hinside Hsm Hme Hothers.
  apply andb_prop in Hinside as [Hts _].
  assert (Hcov : covers t m = true).
  { unfold covers. rewrite (leb_trans _ _ _ Hts Hsm). exact Hme. }
  apply (find_speaker_latest (sort_by_start turns) m) with (t := t).
  - now apply (Permutation_Forall (sort_by_start_perm turns)).
  - now apply sort_by_start_sorted.
  - reflexivity.
  - now apply (Permutation_in _ (sort_by_start_perm turns)).
  - exact Hcov.
  - intros u Hu Hum.
    apply (Permutation_in _ (Permutation_sym (sort_by_start_perm turns))) in Hu.
    destruct (Hothers u Hu) as [->|[Hlt|Hgt]]; [now right|now left|].
    rewrite leb_ltb, Hgt in Hum; [discriminate| |].
    + now apply ltb_is_nan_r in Hgt.
    + now apply ltb_is_nan_l in Hgt.
Qed.

Lemma word_inside_turn_gets_its_speaker_witness :
  WordInfo.speaker
    (_find_speaker_for_word (word 3 7)
       (sort_by_start
          [Turn.mk 8 12 "C"; Turn.mk 2 9 "A"; Turn.mk 0 3.5 "B"]))
  = Some "A"%string.
Proof.
  apply (word_inside_turn_gets_its_speaker (word 3 7)
           [Turn.mk 8 12 "C"; Turn.mk 2 9 "A"; Turn.mk 0 3.5 "B"]
           (Turn.mk 2 9 "A")).
  - repeat constructor.
  - right; left; reflexivity.
  - reflexivity.
  - reflexivity.
  - reflexivity.
  - intros u [<-|[<-|[<-|[]]]]; vm_compute; auto.
Defined.

(** C5 (as stated, refuted).  The midpoint 5 of the word [4, 6] lies in the
    turns [0, 10] of A and [2, 10] of B and not in the turn [3, 4] of C.  Of
    the two turns that contain it B starts later, yet the word is left
    without a speaker: the search stops at C, the last turn to start. *)
Lemma overlapping_turns_can_leave_word_unknown :
  let w := word 4 6 in
  let A := Turn.mk 0 10 "A" in
  let B := Turn.mk 2 10 "B" in
  let C := Turn.mk 3 4 "C" in
  let m := midpoint (WordInfo.start w) (WordInfo.end_ w) in
  covers A m = true /\ covers B m = true /\ covers C m = false /\
  WordInfo.speaker (_find_speaker_for_word w (sort_by_start [A; B; C]))
    = Some "UNKNOWN"%string.
Proof. repeat split. Qed.

(** On a sorted table: when no turn that covers the midpoint starts later
    than [t], and some turn starts later than [t] and at or before the
    midpoint, the turn the search settles on does not cover the midpoint
    and the word is left without a speaker. *)
Lemma find_speaker_blocked (table : list Turn.t) (w : WordInfo.t)
    (t u : Turn.t) :
  let m := midpoint (WordInfo.start w) (WordInfo.end_ w) in
  Forall start_not_nan table ->
  StronglySorted start_ordered table ->
  (forall v, In v table -> covers v m = true ->
     (Turn.start t <? Turn.start v)%float = false) ->
  In u table ->
  (Turn.start t <? Turn.start u)%float = true ->
  (Turn.start u <=? m)%float = true ->
  WordInfo.speaker (_find_speaker_for_word w table) = Some "UNKNOWN"%string.
Proof.
  intros m Hnan Hsorted Hgreatest Hu Htu Hum.
  rewrite (find_speaker_sorted table m Hnan Hsorted w eq_refl).
  destruct (table_bisect table m Hnan Hsorted) as (Hr & Hlo & Hhi).
  destruct (In_nth_error _ _ Hu) as [k Hk].
  assert (Hmn : is_nan m = false) by now apply leb_is_nan_r in Hum.
  assert (Hun : is_nan (Turn.start u) = false)
    by now apply leb_is_nan_l in Hum.
  assert (Hkr : k < bisect_right (map Turn.start table) m).
  { destruct (Nat.lt_ge_cases k (bisect_right (map Turn.start table) m))
      as [H|H]; [exact H|].
    specialize (Hhi k u H Hk). rewrite leb_ltb, Hhi in Hum by assumption.
    discriminate. }
  destruct (bisect_right (map Turn.start table) m) as [|p]; [lia|].
  destruct (nth_error table p) as [c|] eqn:Ec; [|reflexivity].
  destruct (covers c m) eqn:Hc; [|reflexivity].
  assert (Hord : (Turn.start c <? Turn.start u)%float = false).
  { apply (sorted_nth table Hsorted k p u c); [lia|exact Hk|exact Ec]. }
  assert (Hcn : is_nan (Turn.start c) = false).
  { rewrite Forall_forall in Hnan. apply Hnan. now apply nth_error_In with p. }
  pose proof (ltb_le_trans _ _ _ Hcn Htu Hord) as Hlt.
  rewrite (Hgreatest c (nth_error_In _ _ Ec) Hc) in Hlt. discriminate.
Qed.


(** C5 (amended).  Let the midpoint [m] of the word lie in the turn [t].
    The word gets [t]'s speaker provided every turn that starts at or
    before [m] and not strictly before [t] contains [m] too and carries
    [t]'s speaker.  When [t] is the containing turn with the greatest start
    and some turn starts later than [t] and at or before [m], that turn
    does not contain [m], the one candidate examined (the last turn to
    start at or before [m]) does not contain it either, and the word gets
    "UNKNOWN". *)
Theorem overlapping_turns_latest_start_wins (w : WordInfo.t)
    (turns : list Turn.t) (t : Turn.t) :
  let m := midpoint (WordInfo.start w) (WordInfo.end_ w) in
  let speaker :=
    WordInfo.speaker (_find_speaker_for_word w (sort_by_start turns)) in
  Forall start_not_nan turns ->
  In t turns -> covers t m = true ->
  ((forall u, In u turns -> (Turn.start u <=? m)%float = true ->
      (Turn.start u <? Turn.start t)%float = true \/
      (covers u m = true /\ Turn.speaker u = Turn.speaker t)) ->
   speaker = Some (Turn.speaker t)) /\
  ((forall v, In v turns -> covers v m = true ->
      (Turn.start t <? Turn.start v)%float = false) ->
   forall u, In u turns ->
     (Turn.start t <? Turn.start u)%float = true ->
     (Turn.start u <=? m)%float = true ->
     covers u m = false /\ speaker = Some "UNKNOWN"%string).
Proof.
  intros m speaker Hnan Hin Hcov. subst speaker.
  assert (Hnan' : Forall start_not_nan (sort_by_start turns))
    by now apply (Permutation_Forall (sort_by_start_perm turns)).
  pose proof (sort_by_start_sorted turns Hnan) as Hsorted.
  split.
  - intro Hothers.
    apply (find_speaker_latest (sort_by_start turns) m) with (t := t); auto.
    + now apply (Permutation_in _ (sort_by_start_perm turns)).
    + intros u Hu. apply Hothers.
      now apply (Permutation_in _ (Permutation_sym (sort_by_start_perm turns))).
  - intros Hgreatest u Hu Htu Hum. split.
    + destruct (covers u m) eqn:Hc; [|reflexivity].
      rewrite (Hgreatest u Hu Hc) in Htu. discriminate.
    + apply (find_speaker_blocked (sort_by_start turns) w t u); auto.
      * intros v Hv. apply Hgreatest.
        now apply (Permutation_in _ (Permutation_sym (sort_by_start_perm turns))).
      * now apply (Permutation_in _ (sort_by_start_perm turns)).
Qed.

Lemma overlapping_turns_latest_start_wins_witness :
  WordInfo.speaker
    (_find_speaker_for_word (word 4 6)
       (sort_by_start
          [Turn.mk 2 10 "B"; Turn.mk 7 9 "C"; Turn.mk 0 10 "A"]))
    = Some "B"%string /\
  (covers (Turn.mk 3 4 "C") (midpoint 4 6) = false /\
   WordInfo.speaker
     (_find_speaker_for_word (word 4 6)
        (sort_by_start
           [Turn.mk 0 10 "A"; Turn.mk 2 10 "B"; Turn.mk 3 4 "C"]))
     = Some "UNKNOWN"%string).
Proof.
  split.
  - apply (overlapping_turns_latest_start_wins (word 4 6)
             [Turn.mk 2 10 "B"; Turn.mk 7 9 "C"; Turn.mk 0 10 "A"]
             (Turn.mk 2 10 "B")).
    + repeat constructor.
    + left; reflexivity.
    + reflexivity.
    + intros u [<-|[<-|[<-|[]]]]; vm_compute; auto; discriminate.
  - destruct (overlapping_turns_latest_start_wins (word 4 6)
                [Turn.mk 0 10 "A"; Turn.mk 2 10 "B"; Turn.mk 3 4 "C"]
                (Turn.mk 2 10 "B")) as [_ H].
    + repeat constructor.
    + right; left; reflexivity.
    + reflexivity.
    + apply H.
      * intros v [<-|[<-|[<-|[]]]]; vm_compute; auto; discriminate.
      * right; right; left; reflexivity.
      * reflexivity.
      * reflexivity.
Defined.

(** ** Strings *)

Lemma length_append (s1 s2 : string) :
  String.length (s1 ++ s2) = String.length s1 + String.length s2.
Proof. induction s1; simpl; congruence. Qed.

Lemma append_assoc (s1 s2 s3 : string) :
  ((s1 ++ s2) ++ s3 = s1 ++ (s2 ++ s3))%string.
Proof. induction s1; simpl; congruence. Qed.

Lemma append_nil_r (s : string) : (s ++ "")%string = s.
Proof. induction s; simpl; congruence. Qed.

(** ** Rendering a time *)

Lemma str_int_reads (n : Z) : (0 <= n)%Z -> reads_as (str_int n) n.
Proof.
  intro Hn. destruct n as [|p|p]; [| |lia].
  - exists (Decimal.D0 Decimal.Nil). now split.
  - exists (Pos.to_uint p). unfold str_int. simpl. split.
    + pose proof (Unsigned.to_uint_nonnil p) as Hnil.
      unfold NilZero.string_of_uint.
      destruct (Pos.to_uint p) eqn:E; try apply NilEmpty.usu. congruence.
    + unfold Z.of_uint. now rewrite Unsigned.of_to.
Qed.

Lemma zeros_reads (k : nat) (s : string) (n : Z) :
  reads_as s n -> reads_as (zeros k ++ s) n.
Proof.
  intros (d & Hd & Hn). induction k as [|k (d' & Hd' & Hn')]; [now exists d|].
  exists (Decimal.D0 d'). simpl. rewrite Hd'. now split.
Qed.

Lemma length_zeros (k : nat) : String.length (zeros k) = k.
Proof. induction k; simpl; congruence. Qed.

Lemma fmt0_reads (w : nat) (n : Z) :
  (0 <= n)%Z -> reads_as (fmt0 w n) n /\ w <= String.length (fmt0 w n).
Proof.
  intro Hn. unfold fmt0. destruct (Z.ltb_spec n 0); [lia|]. split.
  - now apply zeros_reads, str_int_reads.
  - rewrite length_append, length_zeros. lia.
Qed.

Lemma fmt0_2_width (n : Z) :
  (0 <= n < 100)%Z -> String.length (fmt0 2 n) = 2.
Proof.
  intro Hn.
  assert (H : forallb (fun k => String.length (fmt0 2 (Z.of_nat k)) =? 2)
                (seq 0 100) = true) by (vm_compute; reflexivity).
  rewrite forallb_forall in H.
  specialize (H (Z.to_nat n)). rewrite Z2Nat.id in H by lia.
  apply Nat.eqb_eq, H, in_seq. lia.
Qed.

Lemma Prim2SF_zero : Prim2SF 0 = S754_zero false.
Proof. reflexivity. Qed.

Lemma trunc_nonneg (x : float) :
  (0 <=? x)%float = true -> (0 <= pyfloat.trunc x)%Z.
Proof.
  rewrite leb_spec, Prim2SF_zero. unfold pyfloat.trunc.
  destruct (Prim2SF x) as [| | |s m e]; try lia.
  destruct s; [discriminate|]. intros _. now apply Z.shiftl_nonneg.
Qed.

Lemma hms_fields (whole millisec : Z) :
  (0 <= whole)%Z -> (0 <= millisec)%Z ->
  exists hh mm ss mmm,
    hms whole millisec = (hh ++ ":" ++ mm ++ ":" ++ ss ++ "," ++ mmm)%string /\
    reads_as hh (whole / 3600) /\ 2 <= String.length hh /\
    reads_as mm (whole / 60 mod 60) /\ String.length mm = 2 /\
    reads_as ss (whole mod 60) /\ String.length ss = 2 /\
    reads_as mmm millisec /\ 3 <= String.length mmm.
Proof.
  intros Hw Hm. unfold hms.
  assert (H1 : (0 <= whole / 3600)%Z) by (apply Z.div_pos; lia).
  assert (H2 : (0 <= whole / 60 mod 60 < 60)%Z) by (apply Z.mod_pos_bound; lia).
  assert (H3 : (0 <= whole mod 60 < 60)%Z) by (apply Z.mod_pos_bound; lia).
  rewrite !Z.max_r by lia.
  do 4 eexists. split; [reflexivity|].
  destruct (fmt0_reads 2 _ H1) as [? ?].
  destruct (fmt0_reads 2 (whole / 60 mod 60)) as [? _]; [lia|].
  destruct (fmt0_reads 2 (whole mod 60)) as [? _]; [lia|].
  destruct (fmt0_reads 3 _ Hm) as [? ?].
  repeat split; auto; apply fmt0_2_width; lia.
Qed.

Lemma format_srt_time_invalid (x : float) :
  is_nan x = true \/ is_infinity x = true ->
  format_srt_time (PyFloat x) = Some "00:00:00,000"%string.
Proof.
  intro H. simpl. unfold format_srt_time_float.
  destruct H as [-> | ->]; [reflexivity|]. now rewrite orb_true_r.
Qed.

(** What [save_to_srt] prints for a phrase boundary is [format_srt_time] of
    it. *)
Lemma srt_time_is_format_srt_time (t : option float) :
  format_srt_time (time_value t) = Some (srt_time t).
Proof. now destruct t. Qed.

(** C7.  A non-negative finite number of seconds is rendered as
    hours, minutes, seconds and milliseconds, each written in decimal and
    padded with zeros to 2, 2, 2 and 3 digits, separated by ":", ":" and
    ","; the first three fields read as the hours, minutes and seconds of
    the integer part, minutes and seconds take exactly two digits, and the
    last field reads as the milliseconds the float arithmetic yields.
    [None], NaN and the infinities give "00:00:00,000", and nothing is
    raised.  The three examples of the specification hold. *)
Theorem format_srt_time_renders (seconds : pyvalue) (whole : Z) :
  whole_seconds seconds = Some whole ->
  (exists hh mm ss mmm,
     format_srt_time seconds
       = Some (hh ++ ":" ++ mm ++ ":" ++ ss ++ "," ++ mmm)%string /\
     reads_as hh (whole / 3600) /\ 2 <= String.length hh /\
     reads_as mm (whole / 60 mod 60) /\ String.length mm = 2 /\
     reads_as ss (whole mod 60) /\ String.length ss = 2 /\
     reads_as mmm (millis seconds) /\ 3 <= String.length mmm) /\
  (forall x, is_nan x = true \/ is_infinity x = true ->
     format_srt_time (PyFloat x) = Some "00:00:00,000"%string) /\
  format_srt_time PyNone = Some "00:00:00,000"%string /\
  format_srt_time (PyFloat 3661.123) = Some "01:01:01,123"%string /\
  format_srt_time (PyInt 0) = Some "00:00:00,000"%string /\
  format_srt_time (PyFloat nan) = Some "00:00:00,000"%string.
Proof.
  intro Hv. split; [|split; [exact format_srt_time_invalid|now repeat split]].
  destruct seconds as [|n|x|]; simpl in Hv; try discriminate.
  - destruct (Z.leb_spec 0 n) as [Hn|]; [|discriminate]. simpl in Hv.
    destruct (pyfloat.int_fits n) eqn:Hfit; [|discriminate].
    injection Hv as <-. unfold format_srt_time. rewrite Hfit.
    replace (Z.max 0 ((n - n) * 1000)) with 0%Z by lia.
    destruct (hms_fields n 0) as (hh & mm & ss & mmm & E & H); [lia|lia|].
    exists hh, mm, ss, mmm. rewrite E. repeat split; apply H.
  - destruct (is_finite x) eqn:Hfin; [|discriminate]. simpl in Hv.
    destruct (0 <=? x)%float eqn:Hpos; [|discriminate].
    injection Hv as <-. unfold format_srt_time, format_srt_time_float.
    unfold is_finite in Hfin. apply negb_true_iff in Hfin. rewrite Hfin.
    change (pyfloat.of_int 1000) with 1000%float.
    fold (millis (PyFloat x)).
    destruct (hms_fields (pyfloat.trunc x) (millis (PyFloat x)))
      as (hh & mm & ss & mmm & E & H);
      [now apply trunc_nonneg|unfold millis; lia|].
    exists hh, mm, ss, mmm. rewrite E. repeat split; apply H.
Qed.

Lemma format_srt_time_renders_witness :
  (exists hh mm ss mmm,
     format_srt_time (PyFloat 3661.123)
       = Some (hh ++ ":" ++ mm ++ ":" ++ ss ++ "," ++ mmm)%string /\
     reads_as hh (3661 / 3600) /\ 2 <= String.length hh /\
     reads_as mm (3661 / 60 mod 60) /\ String.length mm = 2 /\
     reads_as ss (3661 mod 60) /\ String.length ss = 2 /\
     reads_as mmm (123) /\ 3 <= String.length mmm) /\
  (forall x, is_nan x = true \/ is_infinity x = true ->
     format_srt_time (PyFloat x) = Some "00:00:00,000"%string) /\
  format_srt_time PyNone = Some "00:00:00,000"%string /\
  format_srt_time (PyFloat 3661.123) = Some "01:01:01,123"%string /\
  format_srt_time (PyInt 0) = Some "00:00:00,000"%string /\
  format_srt_time (PyFloat nan) = Some "00:00:00,000"%string.
Proof.
  apply (format_srt_time_renders (PyFloat 3661.123) 3661). reflexivity.
Defined.

(** ** The subtitle loop and malformed words *)

Lemma srt_step_malformed (opts : srt_options.t) (i : Z) (w : AlignedWord.t)
    (st : srt_state) :
  well_formed w = false -> srt_step opts i w st = st.
Proof.
  unfold well_formed, srt_step.
  destruct (AlignedWord.start w), (AlignedWord.end_ w), (AlignedWord.text w),
    (AlignedWord.speaker w); try reflexivity.
  intro H. apply negb_false_iff in H. now rewrite H.
Qed.

(** The position of a word in the input matters only through [i > 0], and
    only while a phrase is open. *)
Lemma srt_step_index (opts : srt_options.t) (i j : Z) (w : AlignedWord.t)
    (st : srt_state) :
  (pystr.truthy (phrase_text st) = true -> (0 < i)%Z /\ (0 < j)%Z) ->
  srt_step opts i w st = srt_step opts j w st.
Proof.
  intro H. unfold srt_step.
  destruct (AlignedWord.start w), (AlignedWord.end_ w), (AlignedWord.text w),
    (AlignedWord.speaker w); try reflexivity.
  destruct (_ <? _)%float; [reflexivity|].
  destruct (pystr.truthy (phrase_text st)) eqn:E; [|reflexivity].
  destruct (H eq_refl) as [Hi Hj].
  destruct (Z.gtb_spec i 0), (Z.gtb_spec j 0); try lia. reflexivity.
Qed.

Lemma srt_loop_skips_malformed (opts : srt_options.t)
    (ws : list AlignedWord.t) : forall (i j : Z) (st : srt_state),
  (0 <= i)%Z -> (0 <= j)%Z ->
  (pystr.truthy (phrase_text st) = true -> (0 < i)%Z /\ (0 < j)%Z) ->
  srt_loop opts i ws st = srt_loop opts j (filter well_formed ws) st.
Proof.
  induction ws as [|w ws IH]; intros i j st Hi Hj Hopen; [reflexivity|].
  cbn [srt_loop filter]. destruct (well_formed w) eqn:Hw.
  - cbn [srt_loop]. rewrite (srt_step_index opts i j w st Hopen).
    apply IH; lia.
  - rewrite srt_step_malformed by exact Hw. apply IH; try lia.
    intro H. destruct (Hopen H). lia.
Qed.

(** ** Words and options of any content *)

Lemma opt_eqb_Some (a : option string) (b : string) :
  opt_eqb a (Some b) = opt_string_eqb a b.
Proof. now destruct a. Qed.

(** On words whose text and speaker are strings when present, and with a
    gap threshold that is a number, nothing raises and an iteration is the
    one of [srt_step]. *)
Lemma raw_srt_step_typed (opts : srt_options.t) (i : Z) (w : AlignedWord.t)
    (st : srt_state) :
  raw_srt_step (get (srt_options.max_line_length opts) (Some 42%Z))
    (get (srt_options.max_words_per_entry opts) (Some 10%Z))
    (Some (get (srt_options.speaker_gap_threshold opts) 1%float))
    i (raw_of w) st
  = inl (srt_step opts i w st).
Proof.
  unfold raw_srt_step, srt_step, raw_of.
  cbn [RawWord.start RawWord.end_ RawWord.text RawWord.speaker].
  destruct (AlignedWord.start w) as [s|], (AlignedWord.end_ w) as [e|],
    (AlignedWord.text w) as [t|], (AlignedWord.speaker w) as [spk|];
    try reflexivity.
  cbn [option_map]. destruct (e <? s)%float; [reflexivity|].
  rewrite opt_eqb_Some.
  destruct (i >? 0)%Z; cbn [andb];
    match goal with
    | |- context [pystr.truthy (phrase_text st) && ?c] =>
        destruct (pystr.truthy (phrase_text st) && c)
    end;
    cbn [phrase_text pystr.truthy negb get];
    try reflexivity;
    destruct (negb (pystr.truthy (phrase_text st))); try reflexivity;
    destruct (negb (negb (opt_string_eqb (current_speaker_srt st) spk)));
    reflexivity.
Qed.

Lemma raw_srt_loop_typed (opts : srt_options.t) (ws : list AlignedWord.t) :
  forall (i : Z) (st : srt_state),
  raw_srt_loop (get (srt_options.max_line_length opts) (Some 42%Z))
    (get (srt_options.max_words_per_entry opts) (Some 10%Z))
    (Some (get (srt_options.speaker_gap_threshold opts) 1%float))
    i (map raw_of ws) st
  = inl (srt_loop opts i ws st).
Proof.
  induction ws as [|w ws IH]; intros i st; [reflexivity|].
  cbn [map raw_srt_loop srt_loop]. now rewrite raw_srt_step_typed, IH.
Qed.

Lemma raw_save_to_srt_typed (opts : srt_options.t) (ws : list AlignedWord.t) :
  raw_save_to_srt (map raw_of ws)
    (get (srt_options.max_line_length opts) (Some 42%Z))
    (get (srt_options.max_words_per_entry opts) (Some 10%Z))
    (Some (get (srt_options.speaker_gap_threshold opts) 1%float))
  = (save_to_srt ws opts, true).
Proof.
  unfold raw_save_to_srt, save_to_srt. now rewrite raw_srt_loop_typed.
Qed.






(** ** Phrases *)

Lemma join_cons (a b : string) (l : list string) :
  pystr.join " " (a :: b :: l) = (a ++ " " ++ pystr.join " " (b :: l))%string.
Proof. reflexivity. Qed.

Lemma join_snoc (acc : string) (l : list string) (x : string) :
  pystr.join " " ((acc :: l) ++ [x])
    = (pystr.join " " (acc :: l) ++ " " ++ x)%string.
Proof.
  revert acc. induction l as [|y l IH]; intro acc; [reflexivity|].
  change ((acc :: y :: l) ++ [x]) with (acc :: ((y :: l) ++ [x])).
  change ((y :: l) ++ [x]) with (y :: (l ++ [x])) at 1.
  rewrite !join_cons.
  change (y :: l ++ [x]) with ((y :: l) ++ [x]).
  now rewrite IH, !append_assoc.
Qed.

Lemma last_cons {A : Type} (x : A) (l : list A) (d : A) :
  last (x :: l) d = last l x.
Proof.
  revert x d. induction l as [|y l IH]; intros x d; [reflexivity|].
  change (last (x :: y :: l) d) with (last (y :: l) d).
  now rewrite (IH y d), (IH y x).
Qed.

Lemma last_end_cons (v : float * float * string)
    (rest : list (float * float * string)) :
  last_end (v :: rest) = Some (snd (fst (last rest v))).
Proof.
  unfold last_end. cbn [fold_left]. revert v.
  induction rest as [|x rest IH]; intro v; [reflexivity|].
  cbn [fold_left]. rewrite IH. now rewrite last_cons.
Qed.

(** The entry of a phrase is what the loop writes for it. *)
Lemma entry_of_writes (opts : srt_options.t) (n : Z) (speaker : string)
    (vs : list (float * float * string)) :
  vs <> [] ->
  entry_of opts n speaker vs =
    entry_writes (get (srt_options.max_line_length opts) (Some 42%Z)) n
      (first_start vs) (last_end vs) (Some speaker)
      (pystr.join " " (texts vs)).
Proof.
  destruct vs as [|[[s e] t] rest]; [congruence|]. intros _.
  now rewrite last_end_cons.
Qed.

Section Run.
Variable opts : srt_options.t.
Variable speaker : string.
Variable cap : Z.
Hypothesis cap_set : srt_options.max_words_per_entry opts = Some (Some cap).

Let gap := get (srt_options.speaker_gap_threshold opts) 1%float.



(** The first word opens a phrase. *)
Lemma srt_step_first (i : Z) (s e : float) (t : string) :
  (e <? s)%float = false ->
  srt_step opts i (spoken speaker (s, e, t)) initial_state =
    mkState [] 1 (Some s) (Some e) t (Some speaker) 1 e.
Proof.
  intro Hse. unfold srt_step. cbn [spoken AlignedWord.start
    AlignedWord.end_ AlignedWord.text AlignedWord.speaker].
  now rewrite Hse.
Qed.


End Run.





(** ** Splitting and wrapping *)

Lemma split_from_app (a : string) : forall cur s,
  no_space a = true ->
  pystr.split_from cur (a ++ s) = pystr.split_from (cur ++ a) s.
Proof.
  induction a as [|c a IH]; intros cur s Ha.
  - now rewrite append_nil_r.
  - cbn [no_space] in Ha. apply andb_prop in Ha as [Hc Ha].
    apply negb_true_iff in Hc.
    cbn [append pystr.split_from]. rewrite Hc, IH by exact Ha.
    now rewrite append_assoc.
Qed.

Lemma split_from_truthy (s : string) : forall cur,
  Forall (fun t => pystr.truthy t = true) (pystr.split_from cur s).
Proof.
  induction s as [|c s IH]; intro cur; cbn [pystr.split_from].
  - destruct (pystr.truthy cur) eqn:E; repeat constructor. exact E.
  - destruct (pystr.isspace c); [|apply IH].
    destruct (pystr.truthy cur) eqn:E; [constructor; [exact E|]|]; apply IH.
Qed.

Lemma no_space_tag (speaker : string) :
  no_space speaker = true -> no_space ("[" ++ speaker ++ "]:") = true.
Proof.
  intro H. cbn [append no_space]. change (pystr.isspace "[") with false.
  cbn [negb andb]. induction speaker as [|c s IH]; [reflexivity|].
  cbn [no_space append] in *. apply andb_prop in H as [-> H]. now apply IH.
Qed.

Lemma tagged_line (speaker text : string) :
  ("[" ++ speaker ++ "]: " ++ text
   = ("[" ++ speaker ++ "]:") ++ " " ++ text)%string.
Proof. cbn [append]. f_equal. now rewrite append_assoc. Qed.

Lemma split_tagged (speaker text : string) :
  no_space speaker = true ->
  pystr.split ("[" ++ speaker ++ "]: " ++ text)
    = ("[" ++ speaker ++ "]:")%string :: pystr.split text.
Proof.
  intro H. rewrite tagged_line. unfold pystr.split.
  rewrite split_from_app by now apply no_space_tag.
  reflexivity.
Qed.

Lemma line_of_truthy (g : list string) :
  g <> [] -> Forall (fun t => pystr.truthy t = true) g ->
  pystr.truthy (line_of g) = true.
Proof.
  destruct g as [|a g]; [congruence|]. intros _ H.
  inversion H as [|? ? Ha _]; subst.
  destruct a; [discriminate|]. now destruct g.
Qed.

Lemma line_of_snoc (g : list string) (w : string) :
  g <> [] -> line_of (g ++ [w]) = (line_of g ++ " " ++ w)%string.
Proof. destruct g as [|a g]; [congruence|]. intros _. apply join_snoc. Qed.

Lemma len_line_of_ge (g : list string) (w : string) :
  In w g -> (pystr.len w <= pystr.len (line_of g))%Z.
Proof.
  unfold pystr.len, line_of. intro H. apply inj_le.
  induction g as [|a g IH]; [contradiction|].
  destruct g as [|b g].
  - destruct H as [->|[]]. apply Nat.le_refl.
  - rewrite join_cons, !length_append. destruct H as [->|H]; [lia|].
    specialize (IH H). lia.
Qed.

Section Wrap.
Variable n : Z.

Lemma wrap_fold (words : list string) : forall gs g,
  Forall (fun t => pystr.truthy t = true) words ->
  Forall (fits n) gs -> open_line_ok n g ->
  exists gs' g',
    fold_left (wrap_step n) words (map line_of gs, line_of g)
      = (map line_of gs', line_of g') /\
    (List.concat gs' ++ g' = List.concat gs ++ g ++ words)%list /\
    Forall (fits n) gs' /\ open_line_ok n g'.
Proof.
  induction words as [|w words IH]; intros gs g Hw Hgs Hg.
  - exists gs, g. now rewrite app_nil_r.
  - inversion Hw as [|? ? Hwt Hws]; subst. cbn [fold_left].
    destruct Hg as [->|[Hgt Hfit]].
    + change (wrap_step n (map line_of gs, line_of []) w)
        with (map line_of gs, line_of [w]).
      destruct (IH gs [w] Hws Hgs) as (gs' & g' & E & Hc & Hf & Ho).
      { right. split; [now constructor|]. split; [discriminate|now left]. }
      exists gs', g'. now rewrite E, Hc.
    + pose proof (line_of_truthy g (proj1 Hfit) Hgt) as Ht.
      unfold wrap_step at 2. rewrite Ht. cbn [negb].
      destruct (Z.leb_spec (pystr.len (line_of g) + pystr.len w + 1) n)
        as [Hle|Hover].
      * rewrite <- line_of_snoc by apply Hfit.
        destruct (IH gs (g ++ [w]) Hws Hgs) as (gs' & g' & E & Hc & Hf & Ho).
        { right. split; [apply Forall_app; split; [exact Hgt|now constructor]|].
          split; [now destruct g|]. right.
          rewrite line_of_snoc by apply Hfit.
          unfold pystr.len in *. rewrite !length_append. cbn [String.length].
          lia. }
        exists gs', g'. rewrite E, Hc. now rewrite <- !app_assoc.
      * change (map line_of gs ++ [line_of g]) with
          (map line_of gs ++ map line_of [g]).
        rewrite <- map_app. change w with (line_of [w]) at 1.
        destruct (IH (gs ++ [g]) [w] Hws) as (gs' & g' & E & Hc & Hf & Ho).
        { apply Forall_app. split; [exact Hgs|now constructor]. }
        { right. split; [now constructor|]. split; [discriminate|now left]. }
        exists gs', g'. rewrite E, Hc, concat_app. cbn [List.concat].
        now rewrite app_nil_r, <- !app_assoc.
Qed.

(** The lines of [wrap_lines] are the words, in order, cut into groups that
    each fit the limit or hold a single word. *)
Lemma wrap_lines_groups (words : list string) :
  Forall (fun t => pystr.truthy t = true) words ->
  exists groups,
    wrap_lines n words = map line_of groups /\
    List.concat groups = words /\ Forall (fits n) groups.
Proof.
  intro Hw. unfold wrap_lines.
  destruct (wrap_fold words [] [] Hw (Forall_nil _) (or_introl eq_refl))
    as (gs & g & E & Hc & Hf & Ho).
  change (@nil string, EmptyString) with (map line_of [], line_of []).
  rewrite E. cbn [List.concat app] in Hc.
  destruct Ho as [->|[Hgt Hfit]].
  - exists gs. rewrite app_nil_r in Hc. now split.
  - rewrite (line_of_truthy g (proj1 Hfit) Hgt).
    exists (gs ++ [g]). rewrite map_app, concat_app. cbn [map List.concat].
    rewrite app_nil_r. split; [reflexivity|]. split; [exact Hc|].
    apply Forall_app. split; [exact Hf|now constructor].
Qed.

End Wrap.

(** ** The entries of a subtitle file *)

Section Entries.
Variable opts : srt_options.t.

Let mll := get (srt_options.max_line_length opts) (Some 42%Z).

Lemma srt_step_entries (i : Z) (w : AlignedWord.t) (st : srt_state) :
  entries_inv opts st -> entries_inv opts (srt_step opts i w st).
Proof.
  intros [[entries Hf] Hspk]. unfold srt_step. fold mll.
  destruct (AlignedWord.start w) as [s|], (AlignedWord.end_ w) as [e|],
    (AlignedWord.text w) as [t|], (AlignedWord.speaker w) as [spk|];
    try (split; [now exists entries|exact Hspk]).
  destruct (e <? s)%float; [split; [now exists entries|exact Hspk]|].
  destruct (pystr.truthy (phrase_text st)) eqn:Hopen.
  - destruct (Hspk eq_refl) as [cur Hcur].
    match goal with
    | |- context [true && ?c] => destruct c eqn:Hbreak
    end; cbn [andb phrase_text f_srt current_speaker_srt pystr.truthy negb].
    + split; [|now exists spk].
      exists (entries ++ [(srt_sequence st, phrase_start_time st,
                           phrase_end_time st, cur, phrase_text st)]).
      rewrite flat_map_app, Hf, Hcur. cbn [flat_map writes_of].
      now rewrite app_nil_r.
    + rewrite Hopen. cbn [negb].
      destruct (negb (negb (opt_string_eqb (current_speaker_srt st) spk)));
        cbn [phrase_text f_srt current_speaker_srt];
        (split; [now exists entries|]); intros _;
        [now exists cur|now exists spk].
  - cbn [andb]. rewrite Hopen.
    cbn [negb phrase_text f_srt current_speaker_srt].
    split; [now exists entries|now exists spk].
Qed.

Lemma srt_loop_entries (ws : list AlignedWord.t) : forall (i : Z) st,
  entries_inv opts st -> entries_inv opts (srt_loop opts i ws st).
Proof.
  induction ws as [|w ws IH]; intros i st H; [exact H|].
  cbn [srt_loop]. now apply IH, srt_step_entries.
Qed.

Lemma save_to_srt_entries (ws : list AlignedWord.t) :
  exists entries, save_to_srt ws opts = flat_map (writes_of mll) entries.
Proof.
  unfold save_to_srt. fold mll.
  destruct (srt_loop_entries ws 0 initial_state) as [[entries Hf] Hspk].
  { split; [now exists []|discriminate]. }
  destruct (pystr.truthy (phrase_text _)) eqn:Hopen; [|now exists entries].
  destruct (Hspk eq_refl) as [cur Hcur].
  exists (entries ++ [(srt_sequence (srt_loop opts 0 ws initial_state),
                       phrase_start_time (srt_loop opts 0 ws initial_state),
                       phrase_end_time (srt_loop opts 0 ws initial_state),
                       cur,
                       phrase_text (srt_loop opts 0 ws initial_state))]).
  rewrite flat_map_app, Hf, Hcur. cbn [flat_map writes_of].
  now rewrite app_nil_r.
Qed.

End Entries.

(** The text block of an entry whose speaker label has no whitespace. *)
Lemma entry_text_lines (n : Z) (speaker phrase : string) :
  n <> 0%Z -> no_space speaker = true ->
  let tag := ("[" ++ speaker ++ "]:")%string in
  let line := (tag ++ " " ++ pystr.strip phrase)%string in
  ((pystr.len line <= n)%Z ->
   entry_text (Some n) (Some speaker) phrase = line) /\
  ((n < pystr.len line)%Z ->
   exists first_words more_lines,
     entry_text (Some n) (Some speaker) phrase
       = pystr.join NL (map line_of ((tag :: first_words) :: more_lines)) /\
     (first_words ++ List.concat more_lines)%list
       = pystr.split (pystr.strip phrase) /\
     Forall (fits n) ((tag :: first_words) :: more_lines) /\
     forall g w, In g ((tag :: first_words) :: more_lines) -> In w g ->
       (n < pystr.len w)%Z -> g = [w]).
Proof.
  intros Hn Hsp tag line. unfold entry_text, _wrap_text_to_lines.
  cbn [str_opt]. rewrite tagged_line. fold tag. fold line.
  destruct (Z.eqb_spec n 0) as [|_]; [contradiction|]. cbn [orb].
  split; intro Hlen.
  - destruct (Z.leb_spec (pystr.len line) n); [reflexivity|lia].
  - destruct (Z.leb_spec (pystr.len line) n); [lia|].
    unfold line, tag. rewrite <- tagged_line, split_tagged by exact Hsp.
    fold tag.
    destruct (wrap_lines_groups n (tag :: pystr.split (pystr.strip phrase)))
      as (groups & E & Hc & Hf).
    { constructor; [reflexivity|apply split_from_truthy]. }
    destruct groups as [|g0 more]; [discriminate|].
    inversion Hf as [|? ? [Hg0 Hfit0] Hmore]; subst.
    destruct g0 as [|t0 first_words]; [congruence|].
    cbn [List.concat app] in Hc. injection Hc as -> Hc.
    exists first_words, more. split; [now rewrite E|]. split; [exact Hc|].
    split; [exact Hf|].
    intros g w Hg Hw Hlong.
    rewrite Forall_forall in Hf. destruct (Hf g Hg) as [_ [H1|Hle]].
    + destruct g as [|a [|b g]]; try discriminate.
      now destruct Hw as [->|[]].
    + pose proof (len_line_of_ge g w Hw). lia.
Qed.

(** C10 (as stated, refuted).  With the speaker label "A B" and a line
    limit of 5 the tag is cut at its blank: the second line of the entry
    is "B]:", a piece of the tag and no word of the phrase. *)
Lemma speaker_tag_is_split_across_lines :
  save_to_srt
    [AlignedWord.mk (Some 0%float) (Some 1%float) (Some "hello"%string)
       (Some "A B"%string)]
    (srt_options.mk (Some (Some 5%Z)) None None)
  = ["1" ++ NL;
     "00:00:00,000 --> 00:00:01,000" ++ NL;
     "[A" ++ NL ++ "B]:" ++ NL ++ "hello" ++ NL ++ NL]%string.
Proof. reflexivity. Qed.

(** C10 (amended).  With a line limit [n] that is not zero, every entry
    [save_to_srt] writes has as its text block the wrapping of the whole
    line "[SPEAKER]: phrase".  When the speaker label has no whitespace
    this block is the line itself if it is at most [n] long; otherwise its
    first line is the tag followed by words of the phrase, the other lines
    hold the remaining words of the phrase in order, every line is at most
    [n] long (tag included) or consists of a single word, and a word longer
    than [n] stands alone on its line, unsplit. *)
Theorem entries_wrap_the_tagged_line (aligned_words : list AlignedWord.t)
    (opts : srt_options.t) (n : Z) :
  get (srt_options.max_line_length opts) (Some 42%Z) = Some n ->
  n <> 0%Z ->
  (exists entries,
     save_to_srt aligned_words opts = flat_map (writes_of (Some n)) entries) /\
  forall number from to speaker phrase,
    no_space speaker = true ->
    let tag := ("[" ++ speaker ++ "]:")%string in
    let line := (tag ++ " " ++ pystr.strip phrase)%string in
    exists block,
      writes_of (Some n) (number, from, to, speaker, phrase)
        = [(str_int number ++ NL)%string;
           (srt_time from ++ " --> " ++ srt_time to ++ NL)%string;
           (block ++ NL ++ NL)%string] /\
      ((pystr.len line <= n)%Z -> block = line) /\
      ((n < pystr.len line)%Z ->
       exists first_words more_lines,
         block = pystr.join NL (map line_of ((tag :: first_words) :: more_lines)) /\
         (first_words ++ List.concat more_lines)%list
           = pystr.split (pystr.strip phrase) /\
         Forall (fits n) ((tag :: first_words) :: more_lines) /\
         forall g w, In g ((tag :: first_words) :: more_lines) -> In w g ->
           (n < pystr.len w)%Z -> g = [w]).
Proof.
  intros Hmll Hn. split.
  - rewrite <- Hmll. apply save_to_srt_entries.
  - intros number from to speaker phrase Hsp tag line.
    exists (entry_text (Some n) (Some speaker) phrase).
    split; [reflexivity|]. now apply entry_text_lines.
Qed.

Lemma entries_wrap_the_tagged_line_witness :
  exists entries,
    save_to_srt (map (spoken "SPEAKER_1") eleven_words) demo_options
      = flat_map (writes_of (Some 42%Z)) entries.
Proof.
  apply (entries_wrap_the_tagged_line
           (map (spoken "SPEAKER_1") eleven_words) demo_options 42);
    [reflexivity|discriminate].
Defined.


(** ** Further properties named by the specification *)

(** X1.  The worker count and the chunk size handed to the pool are at least 1
    for every configuration and every number of words, and follow the
    formulas [max(1, min(max_workers, ceil(n / target)))] and
    [max(1, ceil(n / (workers * 4)))] when there are words and the target is
    positive. *)
Theorem pool_parameters_are_legal (cfg : config.t) (total_words : Z) :
  let workers := num_workers_for cfg total_words in
  (1 <= workers)%Z /\ (1 <= chunksize_for total_words workers)%Z /\
  ((0 <? total_words)%Z && (0 <? config.ALIGNMENT_TARGET_WORDS_PER_CHUNK cfg)%Z
     = true ->
   workers
     = Z.max 1 (Z.min (config.ALIGNMENT_MAX_WORKERS cfg)
                  (ceil_div total_words
                     (config.ALIGNMENT_TARGET_WORDS_PER_CHUNK cfg))) /\
   chunksize_for total_words workers
     = Z.max 1 (ceil_div total_words (workers * 4))).
Proof.
  intro workers. split; [apply num_workers_for_pos|].
  split; [apply chunksize_for_pos|].
  intro H. apply andb_prop in H as [H1 H2].
  apply Z.ltb_lt in H1, H2. subst workers.
  unfold num_workers_for, chunksize_for.
  destruct (Z.gtb_spec total_words 0); [|lia].
  destruct (Z.gtb_spec (config.ALIGNMENT_TARGET_WORDS_PER_CHUNK cfg) 0); [|lia].
  now split.
Qed.

(** X2.  With no speaker turns every aligned word is labelled "UNKNOWN". *)
Theorem no_turns_every_word_unknown (cfg : config.t) (order : list nat)
    (segments : list Segment.t) :
  complete_run (prepare_words segments) (chunksize_of cfg segments) order ->
  exists result,
    snd (align_speech_and_speakers cfg (Completes order) segments [])
      = Some result /\
    Forall (fun a => WordInfo.speaker a = Some "UNKNOWN"%string) result.
Proof.
  intro Hrun. eexists. split; [now apply align_completes|].
  apply Forall_forall. intros a Ha. apply in_map_iff in Ha as (w & <- & _).
  reflexivity.
Qed.

Lemma no_turns_every_word_unknown_witness :
  exists result,
    snd (align_speech_and_speakers demo_cfg (Completes [0; 1]) demo_segments [])
      = Some result /\
    Forall (fun a => WordInfo.speaker a = Some "UNKNOWN"%string) result.
Proof.
  apply (no_turns_every_word_unknown demo_cfg [0; 1] demo_segments).
  vm_compute. apply Permutation_refl.
Defined.

(** The example of [tests/test_alignment.py]: "Hello" falls in the first
    turn, and the midpoint 1.55 of "world" in the second. *)
Theorem test_align_speech_and_speakers :
  snd (align_speech_and_speakers demo_cfg (Completes [0; 1])
         [Segment.mk [Word.mk 0 1 "Hello"; Word.mk 1.1 2 "world"]]
         [Turn.mk 0 1.5 "SPEAKER_1"; Turn.mk 1.5 2.5 "SPEAKER_2"])
  = Some [WordInfo.mk 0 1 "Hello" 0 (Some "SPEAKER_1"%string);
          WordInfo.mk 1.1 2 "world" 1 (Some "SPEAKER_2"%string)].
Proof. reflexivity. Qed.

(** X4.  Two valid words of one speaker, the second starting more than the
    threshold after the first ends, make two entries, six strings in all:
    each entry shows its number, the times of its word and the tagged
    text of its word. *)
Theorem long_gap_starts_new_entry (opts : srt_options.t) (speaker : string)
    (v1 v2 : float * float * string) :
  valid_word v1 = true -> valid_word v2 = true ->
  (get (srt_options.speaker_gap_threshold opts) 1
     <? fst (fst v2) - snd (fst v1))%float = true ->
  let max_line_length := get (srt_options.max_line_length opts) (Some 42%Z) in
  save_to_srt [spoken speaker v1; spoken speaker v2] opts
    = subtitle_entry max_line_length 1 speaker
        (fst (fst v1)) (snd (fst v1)) [snd v1]
      ++ subtitle_entry max_line_length 2 speaker
           (fst (fst v2)) (snd (fst v2)) [snd v2].
Proof.
  destruct v1 as [[s1 e1] t1], v2 as [[s2 e2] t2]. cbn [fst snd valid_word].
  intros H1 H2 Hgap. cbv zeta. unfold subtitle_entry.
  apply andb_prop in H1 as [Hse1 Ht1]. apply negb_true_iff in Hse1.
  apply andb_prop in H2 as [Hse2 Ht2]. apply negb_true_iff in Hse2.
  unfold save_to_srt. cbn [srt_loop]. change (0 + 1)%Z with 1%Z.
  rewrite srt_step_first by exact Hse1.
  unfold srt_step. cbn [spoken AlignedWord.start AlignedWord.end_
    AlignedWord.text AlignedWord.speaker phrase_text current_speaker_srt
    last_word_end_time opt_string_eqb].
  rewrite Hse2, Hgap, Ht1, String.eqb_refl.
  change (1 >? 0)%Z with true.
  cbn [negb orb andb]. cbn [phrase_text pystr.truthy negb f_srt srt_sequence
    phrase_start_time phrase_end_time current_speaker_srt app].
  now rewrite Ht2.
Qed.

Lemma long_gap_starts_new_entry_witness :
  let max_line_length :=
    get (srt_options.max_line_length demo_options) (Some 42%Z) in
  save_to_srt
    [spoken "SPEAKER_1" (timed 0 1 "Hello");
     spoken "SPEAKER_1" (timed 2.5 3 "world")] demo_options
  = subtitle_entry max_line_length 1 "SPEAKER_1"
      (fst (fst (timed 0 1 "Hello"))) (snd (fst (timed 0 1 "Hello")))
      [snd (timed 0 1 "Hello")]
    ++ subtitle_entry max_line_length 2 "SPEAKER_1"
         (fst (fst (timed 2.5 3 "world"))) (snd (fst (timed 2.5 3 "world")))
         [snd (timed 2.5 3 "world")].
Proof.
  apply (long_gap_starts_new_entry demo_options "SPEAKER_1"
           (timed 0 1 "Hello") (timed 2.5 3 "world")); reflexivity.
Defined.

(** ** Further properties of the code *)

(** *** The aligner *)

Lemma SFltb_leb_trans x y z :
  SFltb x y = true -> SFleb y z = true -> SFltb x z = true.
Proof. sf_order. Qed.

Lemma ltb_leb_trans (x y z : float) :
  (x <? y)%float = true -> (y <=? z)%float = true -> (x <? z)%float = true.
Proof. rewrite !ltb_spec, leb_spec. apply SFltb_leb_trans. Qed.

Lemma map_word_index_number_from (ws : list Word.t) : forall k,
  map WordInfo.word_index (number_from k ws) =
    map (fun i => (k + Z.of_nat i)%Z) (seq 0 (List.length ws)).
Proof.
  induction ws as [|w ws IH]; intro k; [reflexivity|].
  cbn [number_from map List.length seq WordInfo.word_index].
  rewrite IH, <- seq_shift, map_map. f_equal; [lia|].
  apply map_ext. intro i. lia.
Qed.

(** X3.  When the pool completes, the [word_index] of the k-th returned
    word is k, counting from 0: the words are numbered in the order of the
    input, and a blank word uses up no number. *)
Theorem aligned_words_are_numbered_from_zero (cfg : config.t)
    (order : list nat) (segments : list Segment.t) (turns : list Turn.t) :
  complete_run (prepare_words segments) (chunksize_of cfg segments) order ->
  exists result,
    snd (align_speech_and_speakers cfg (Completes order) segments turns)
      = Some result /\
    map WordInfo.word_index result
      = map Z.of_nat (seq 0 (List.length result)).
Proof.
  intro Hrun. eexists. split; [now apply align_completes|].
  rewrite map_map, length_map, prepare_words_spec.
  rewrite (map_ext _ WordInfo.word_index)
    by (intro a; apply (find_speaker_keeps a (sort_by_start turns))).
  now rewrite map_word_index_number_from, length_number_from.
Qed.

Lemma aligned_words_are_numbered_from_zero_witness :
  exists result,
    snd (align_speech_and_speakers demo_cfg (Completes [1; 0]) demo_segments
           demo_turns) = Some result /\
    map WordInfo.word_index result
      = map Z.of_nat (seq 0 (List.length result)).
Proof.
  apply (aligned_words_are_numbered_from_zero demo_cfg [1; 0] demo_segments
           demo_turns).
  vm_compute. apply perm_swap.
Defined.

Lemma speaker_at_sound (table : list Turn.t) (i : Z) (m : float) (s : string) :
  speaker_at table i m = Some s ->
  exists t, In t table /\ covers t m = true /\ Turn.speaker t = s.
Proof.
  unfold speaker_at.
  destruct (nth_error table (Z.to_nat i)) as [t|] eqn:E; [|discriminate].
  destruct (covers t m) eqn:Hc; [|discriminate].
  intros [= <-]. exists t. split; [now apply nth_error_In with (Z.to_nat i)|].
  now split.
Qed.

Lemma find_speaker_sound (w : WordInfo.t) (table : list Turn.t) :
  label_justified table (_find_speaker_for_word w table).
Proof.
  unfold label_justified, midpoint_of.
  destruct (find_speaker_keeps w table) as (-> & -> & _).
  rewrite find_speaker_body. cbv zeta.
  set (m := midpoint (WordInfo.start w) (WordInfo.end_ w)).
  set (p := (Z.of_nat (bisect_right (map Turn.start table) m) - 1)%Z).
  eexists. split; [reflexivity|].
  destruct (if (p >=? 0)%Z then speaker_at table p m else None) as [s|] eqn:E1.
  - right. destruct (p >=? 0)%Z; [|discriminate].
    now apply speaker_at_sound with p.
  - destruct (if (p + 1 <? Z.of_nat (List.length table))%Z
              then speaker_at table (p + 1) m else None) as [s|] eqn:E2.
    + right. destruct (p + 1 <? _)%Z; [|discriminate].
      now apply speaker_at_sound with (p + 1)%Z.
    + now left.
Qed.

(** X5.  A returned word never carries a label out of thin air: its speaker
    is "UNKNOWN", or the speaker of one of the caller's turns whose interval
    [start <= m < end] holds the midpoint [m] of the word.  No assumption
    is made on the turns. *)
Theorem assigned_speaker_comes_from_a_covering_turn (cfg : config.t)
    (order : list nat) (segments : list Segment.t) (turns : list Turn.t) :
  complete_run (prepare_words segments) (chunksize_of cfg segments) order ->
  exists result,
    snd (align_speech_and_speakers cfg (Completes order) segments turns)
      = Some result /\
    Forall (label_justified turns) result.
Proof.
  intro Hrun. eexists. split; [now apply align_completes|].
  apply Forall_forall. intros a Ha. apply in_map_iff in Ha as (w & <- & _).
  destruct (find_speaker_sound w (sort_by_start turns))
    as (s & Hs & [->|(t & Hin & Hc & Ht)]).
  - exists "UNKNOWN"%string. now split; [|left].
  - exists s. split; [exact Hs|]. right. exists t. split; [|now split].
    now apply (Permutation_in _ (Permutation_sym (sort_by_start_perm turns))).
Qed.

Lemma assigned_speaker_comes_from_a_covering_turn_witness :
  exists result,
    snd (align_speech_and_speakers demo_cfg (Completes [1; 0]) demo_segments
           demo_turns) = Some result /\
    Forall (label_justified demo_turns) result.
Proof.
  apply (assigned_speaker_comes_from_a_covering_turn demo_cfg [1; 0]
           demo_segments demo_turns).
  vm_compute. apply perm_swap.
Defined.

Lemma proper_not_nan (turns : list Turn.t) :
  Forall proper turns -> Forall start_not_nan turns.
Proof.
  apply Forall_impl. intros t H. now apply ltb_is_nan_l in H.
Qed.

(** X6.  On turns that do not overlap (of any two, one ends at or before
    the start of the other) and that each start before they end, the
    lookup is exact midpoint containment: a word gets the speaker of the
    turn that holds its midpoint, and "UNKNOWN" when no turn does. *)
Theorem separate_turns_decide_by_midpoint (w : WordInfo.t)
    (turns : list Turn.t) :
  let m := midpoint (WordInfo.start w) (WordInfo.end_ w) in
  let speaker :=
    WordInfo.speaker (_find_speaker_for_word w (sort_by_start turns)) in
  Forall proper turns ->
  (forall u t, In u turns -> In t turns -> u = t \/ apart u t) ->
  (forall t, In t turns -> covers t m = true ->
     speaker = Some (Turn.speaker t)) /\
  ((forall t, In t turns -> covers t m = false) ->
     speaker = Some "UNKNOWN"%string).
Proof.
  intros m speaker Hproper Hapart. subst speaker. split.
  - intros t Hin Hcov.
    apply (find_speaker_latest (sort_by_start turns) m) with (t := t).
    + apply (Permutation_Forall (sort_by_start_perm turns)).
      now apply proper_not_nan.
    + now apply sort_by_start_sorted, proper_not_nan.
    + reflexivity.
    + now apply (Permutation_in _ (sort_by_start_perm turns)).
    + exact Hcov.
    + intros u Hu Hum.
      apply (Permutation_in _ (Permutation_sym (sort_by_start_perm turns))) in Hu.
      apply andb_prop in Hcov as Hc. destruct Hc as [Hts Hme].
      destruct (Hapart u t Hu Hin) as [->|[Hut|Htu]].
      * now right.
      * left. rewrite Forall_forall in Hproper.
        apply (ltb_leb_trans _ (Turn.end_ u)); [now apply Hproper|exact Hut].
      * pose proof (ltb_leb_trans _ _ _ Hme Htu) as Hlt.
        rewrite leb_ltb, Hlt in Hum; [discriminate| |].
        -- now apply ltb_is_nan_r in Hlt.
        -- now apply ltb_is_nan_l in Hlt.
  - intro Hnone.
    destruct (find_speaker_sound w (sort_by_start turns))
      as (s & Hs & [->|(t & Hin & Hc & Ht)]); [exact Hs|].
    apply (Permutation_in _ (Permutation_sym (sort_by_start_perm turns))) in Hin.
    unfold midpoint_of in Hc.
    destruct (find_speaker_keeps w (sort_by_start turns)) as (E1 & E2 & _).
    rewrite E1, E2 in Hc. fold m in Hc. rewrite (Hnone t Hin) in Hc.
    discriminate.
Qed.

Lemma separate_turns_decide_by_midpoint_witness :
  let w := word 1.1 2 in
  let turns := [Turn.mk 1.5 2.5 "SPEAKER_2"; Turn.mk 0 1.5 "SPEAKER_1"] in
  let m := midpoint (WordInfo.start w) (WordInfo.end_ w) in
  let speaker :=
    WordInfo.speaker (_find_speaker_for_word w (sort_by_start turns)) in
  (forall t, In t turns -> covers t m = true ->
     speaker = Some (Turn.speaker t)) /\
  ((forall t, In t turns -> covers t m = false) ->
     speaker = Some "UNKNOWN"%string).
Proof.
  apply (separate_turns_decide_by_midpoint (word 1.1 2)
           [Turn.mk 1.5 2.5 "SPEAKER_2"; Turn.mk 0 1.5 "SPEAKER_1"]).
  - repeat constructor.
  - intros u t [<-|[<-|[]]] [<-|[<-|[]]]; vm_compute; auto.
Defined.

Lemma starts_differ_sym (a b : Turn.t) : starts_differ a b -> starts_differ b a.
Proof. unfold starts_differ. tauto. Qed.

Lemma starts_differ_perm (l l' : list Turn.t) :
  Permutation l l' ->
  ForallOrdPairs starts_differ l -> ForallOrdPairs starts_differ l'.
Proof.
  induction 1 as [|x l l' Hp IH|x y l|l l' l'' _ IH1 _ IH2]; intro H.
  - exact H.
  - inversion H as [|? ? Hx Hl]; subst. constructor; [|now apply IH].
    now apply (Permutation_Forall Hp).
  - inversion H as [|? ? Hy Hxl]; subst.
    inversion Hxl as [|? ? Hx Hl]; subst.
    inversion Hy as [|? ? Hyx Hyl]; subst.
    constructor; [constructor; [now apply starts_differ_sym|exact Hx]|].
    now constructor.
  - auto.
Qed.

Lemma sorted_strictly (l : list Turn.t) :
  StronglySorted start_ordered l -> ForallOrdPairs starts_differ l ->
  StronglySorted start_lt l.
Proof.
  induction 1 as [|a l Hs IH Ha]; intro Hd; [constructor|].
  inversion Hd as [|? ? Hda Hdl]; subst. constructor; [now apply IH|].
  rewrite Forall_forall in Ha, Hda |- *. intros b Hb.
  specialize (Ha b Hb). unfold start_ordered in Ha.
  destruct (Hda b Hb) as [H|H]; [exact H|congruence].
Qed.

Lemma strictly_sorted_unique (l1 : list Turn.t) : forall l2,
  StronglySorted start_lt l1 -> StronglySorted start_lt l2 ->
  Permutation l1 l2 -> l1 = l2.
Proof.
  induction l1 as [|a l1 IH]; intros l2 H1 H2 Hp.
  - now apply Permutation_nil in Hp.
  - destruct l2 as [|b l2]; [now apply Permutation_sym, Permutation_nil in Hp|].
    inversion H1 as [|? ? Hs1 Ha]; subst. inversion H2 as [|? ? Hs2 Hb]; subst.
    assert (a = b) as <-.
    { assert (Hin : In a (b :: l2))
        by (apply (Permutation_in _ Hp); now left).
      assert (Hin' : In b (a :: l1))
        by (apply (Permutation_in _ (Permutation_sym Hp)); now left).
      destruct Hin as [->|Hin]; [reflexivity|].
      destruct Hin' as [->|Hin']; [reflexivity|].
      rewrite Forall_forall in Ha, Hb.
      pose proof (Ha b Hin') as Hab. pose proof (Hb a Hin) as Hba.
      unfold start_lt in *. apply ltb_asym in Hab. congruence. }
    f_equal. apply IH; auto. now apply Permutation_cons_inv with a.
Qed.

Lemma sort_by_start_of_permutation (turns turns' : list Turn.t) :
  Forall start_not_nan turns ->
  ForallOrdPairs starts_differ turns ->
  Permutation turns turns' ->
  sort_by_start turns' = sort_by_start turns.
Proof.
  intros Hnan Hd Hp.
  assert (Hnan' : Forall start_not_nan turns')
    by now apply (Permutation_Forall Hp).
  apply strictly_sorted_unique.
  - apply sorted_strictly; [now apply sort_by_start_sorted|].
    apply (starts_differ_perm turns); [|exact Hd].
    eapply perm_trans; [exact Hp|apply sort_by_start_perm].
  - apply sorted_strictly; [now apply sort_by_start_sorted|].
    apply (starts_differ_perm turns); [apply sort_by_start_perm|exact Hd].
  - eapply perm_trans; [apply Permutation_sym, sort_by_start_perm|].
    eapply perm_trans; [apply Permutation_sym, Hp|apply sort_by_start_perm].
Qed.

(** X7.  When no two turns start at the same time, the order in which the
    caller lists the turns does not matter: any rearrangement of the list
    gives the same returned value, whatever the pool does. *)
Theorem alignment_ignores_the_order_of_turns (cfg : config.t)
    (pool : pool_run) (segments : list Segment.t)
    (turns turns' : list Turn.t) :
  Forall start_not_nan turns ->
  ForallOrdPairs starts_differ turns ->
  Permutation turns turns' ->
  snd (align_speech_and_speakers cfg pool segments turns')
    = snd (align_speech_and_speakers cfg pool segments turns).
Proof.
  intros Hnan Hd Hp. rewrite !align_unfold.
  destruct (prepare_words segments); [reflexivity|]. cbn [snd].
  now rewrite (sort_by_start_of_permutation turns turns').
Qed.

Lemma alignment_ignores_the_order_of_turns_witness :
  snd (align_speech_and_speakers demo_cfg (Completes [1; 0]) demo_segments
         (rev demo_turns))
  = snd (align_speech_and_speakers demo_cfg (Completes [1; 0]) demo_segments
           demo_turns).
Proof.
  apply (alignment_ignores_the_order_of_turns demo_cfg (Completes [1; 0])
           demo_segments demo_turns (rev demo_turns)).
  - repeat constructor.
  - constructor; [constructor; [right; reflexivity|constructor]|].
    repeat constructor.
  - apply Permutation_rev.
Defined.

(** *** The plain transcript *)

Lemma changes_snoc (l : list string) (a b : string) :
  changes (l ++ [a]) -> a <> b -> changes ((l ++ [a]) ++ [b]).
Proof.
  induction l as [|x l IH]; intros H Hab.
  - cbn. auto.
  - destruct l as [|y l].
    + cbn in *. tauto.
    + cbn [app changes] in *. destruct H as [Hxy H]. split; [exact Hxy|].
      now apply IH.
Qed.

Lemma paragraph_words_snoc (ps : list (string * list string))
    (speaker : string) (texts : list string) (t : string) :
  paragraph_words (ps ++ [(speaker, texts ++ [t])])
    = paragraph_words (ps ++ [(speaker, texts)]) ++ [(speaker, t)].
Proof.
  unfold paragraph_words. rewrite !flat_map_app. cbn [flat_map fst snd].
  rewrite !app_nil_r, map_app, app_assoc. reflexivity.
Qed.

Lemma txt_step_skip (st : txt_state) (w : AlignedWord.t) :
  txt_word w = None -> txt_step st w = st.
Proof.
  unfold txt_word, txt_step. destruct (AlignedWord.text w) as [t|]; [|reflexivity].
  now destruct (pystr.truthy t).
Qed.

Lemma txt_step_inv (st : txt_state) (done : list (string * string))
    (w : AlignedWord.t) :
  txt_inv st done -> txt_inv (txt_step st w) (done ++ txt_words [w]).
Proof.
  intro H. unfold txt_words. cbn [flat_map]. rewrite app_nil_r.
  destruct (txt_word w) as [[spk t]|] eqn:Ew;
    [|now rewrite txt_step_skip, app_nil_r].
  unfold txt_word in Ew. unfold txt_step.
  destruct (AlignedWord.text w) as [t'|]; [|discriminate].
  destruct (pystr.truthy t') eqn:Ht; [|discriminate].
  injection Ew as Hspk <-. rewrite Hspk. cbn [negb].
  destruct H as [[-> ->]|(ps & cur & texts & Hf & Hc & Hl & Ho & Hne & Hw & Hps & Hch)].
  - cbn [current_speaker_txt opt_string_eqb negb current_line_txt pystr.truthy
         f_txt app].
    right. exists [], spk, [t']. cbn. repeat split; auto. discriminate.
  - rewrite Hc. cbn [opt_string_eqb].
    destruct (String.eqb_spec cur spk) as [->|Hdiff]; cbn [negb].
    + right. exists ps, spk, (texts ++ [t']).
      cbn [f_txt current_speaker_txt current_line_txt].
      split; [exact Hf|]. split; [reflexivity|]. split.
      { rewrite Hl. destruct texts as [|a texts]; [congruence|].
        now rewrite join_snoc. }
      split. { now destruct (current_line_txt st). }
      split. { now destruct texts. }
      split. { now rewrite paragraph_words_snoc, Hw. }
      split; [exact Hps|].
      now rewrite map_app in *.
    + right. exists (ps ++ [(cur, texts)]), spk, [t'].
      rewrite Ho. cbn [f_txt current_speaker_txt current_line_txt].
      split. { rewrite map_app, Hf, Hl. reflexivity. }
      split; [reflexivity|]. split; [reflexivity|]. split; [exact Ht|].
      split; [discriminate|]. split.
      { unfold paragraph_words in *. rewrite flat_map_app, Hw. cbn.
        reflexivity. }
      split. { apply Forall_app. split; [exact Hps|now constructor]. }
      rewrite !map_app in *. cbn [map fst] in *. now apply changes_snoc.
Qed.

Lemma txt_words_app (l1 l2 : list AlignedWord.t) :
  txt_words (l1 ++ l2) = txt_words l1 ++ txt_words l2.
Proof. apply flat_map_app. Qed.

Lemma txt_loop_inv (ws : list AlignedWord.t) : forall st done,
  txt_inv st done -> txt_inv (fold_left txt_step ws st) (done ++ txt_words ws).
Proof.
  induction ws as [|w ws IH]; intros st done H.
  - cbn. now rewrite app_nil_r.
  - cbn [fold_left]. change (w :: ws) with ([w] ++ ws).
    rewrite txt_words_app, app_assoc. now apply IH, txt_step_inv.
Qed.

(** The last statement of [save_to_txt] writes the paragraph still open. *)
Lemma txt_flush (st : txt_state) (done : list (string * string)) :
  txt_inv st done ->
  exists paragraphs,
    (if pystr.truthy (current_line_txt st)
     then f_txt st ++ [txt_line (current_speaker_txt st) (current_line_txt st)]
     else f_txt st) = map paragraph paragraphs /\
    paragraph_words paragraphs = done /\
    Forall (fun p => snd p <> []) paragraphs /\
    changes (map fst paragraphs).
Proof.
  intros [[-> ->]|(ps & cur & texts & Hf & Hc & Hl & Ho & Hne & Hw & Hps & Hch)].
  - exists []. now repeat split.
  - rewrite Ho. exists (ps ++ [(cur, texts)]).
    split. { rewrite map_app, Hf, Hc, Hl. reflexivity. }
    split; [exact Hw|]. split; [|exact Hch].
    apply Forall_app. split; [exact Hps|now constructor].
Qed.

(** X8.  [save_to_txt] writes one line "[SPEAKER]: text" per maximal run of
    consecutive words of one speaker: the lines are the paragraphs of a
    division of the words into runs, in order, no run is empty and
    neighbouring paragraphs have different speakers.  Words whose text is
    missing or empty are skipped, and a word without a [speaker] key counts
    as spoken by "UNKNOWN". *)
Theorem transcript_has_one_paragraph_per_speaker_run
    (aligned_words : list AlignedWord.t) :
  exists paragraphs,
    save_to_txt aligned_words = map paragraph paragraphs /\
    paragraph_words paragraphs = txt_words aligned_words /\
    Forall (fun p => snd p <> []) paragraphs /\
    changes (map fst paragraphs).
Proof.
  unfold save_to_txt. apply txt_flush.
  apply (txt_loop_inv aligned_words (mkTxt [] None EmptyString) []).
  now left.
Qed.

(** *** The phrases of the subtitle file *)

Lemma entries_from_snoc (opts : srt_options.t) (gs : list phrase) (g : phrase) :
  forall n,
  entries_from opts n (gs ++ [g])
    = entries_from opts n gs
        ++ entry_of opts (n + Z.of_nat (List.length gs)) (fst g) (snd g).
Proof.
  induction gs as [|h gs IH]; intro n.
  - cbn [app entries_from List.length]. now rewrite app_nil_r, Z.add_0_r.
  - cbn [app entries_from List.length]. rewrite IH, <- app_assoc.
    do 3 f_equal. lia.
Qed.

Lemma last_end_snoc (vs : list (float * float * string)) (s e : float)
    (t : string) :
  last_end (vs ++ [(s, e, t)]) = Some e.
Proof. unfold last_end. now rewrite fold_left_app. Qed.

Lemma no_long_gap_snoc (gap : float) (vs : list (float * float * string))
    (s e : float) (t : string) : forall p l,
  no_long_gap gap p vs = true ->
  fold_left (fun _ v => Some (snd (fst v))) vs (Some p) = Some l ->
  (gap <? s - l)%float = false ->
  no_long_gap gap p (vs ++ [(s, e, t)]) = true.
Proof.
  induction vs as [|[[s1 e1] t1] vs IH]; intros p l Hg Hl Hs.
  - cbn in *. injection Hl as ->. now rewrite Hs.
  - cbn [app no_long_gap fold_left fst snd] in *.
    apply andb_prop in Hg as [-> Hg]. cbn [andb]. now apply IH with l.
Qed.

Lemma contiguous_snoc (gap : float) (vs : list (float * float * string))
    (s e : float) (t : string) (l : float) :
  contiguous gap vs = true -> last_end vs = Some l ->
  (gap <? s - l)%float = false ->
  contiguous gap (vs ++ [(s, e, t)]) = true.
Proof.
  destruct vs as [|[[s1 e1] t1] vs]; [reflexivity|].
  cbn [app contiguous]. unfold last_end. cbn [fold_left fst snd].
  apply no_long_gap_snoc.
Qed.

Lemma first_start_snoc (vs : list (float * float * string))
    (v : float * float * string) :
  vs <> [] -> first_start (vs ++ [v]) = first_start vs.
Proof. now destruct vs. Qed.

Lemma breaks_justified_grow (opts : srt_options.t) (gs : list phrase)
    (speaker : string) (vs : list (float * float * string))
    (v : float * float * string) :
  vs <> [] ->
  breaks_justified opts (gs ++ [(speaker, vs ++ [v])])
    = breaks_justified opts (gs ++ [(speaker, vs)]).
Proof.
  intro Hne. induction gs as [|g gs IH]; [reflexivity|].
  destruct gs as [|h gs].
  - cbn [app breaks_justified]. unfold break_reason. cbn [fst snd].
    now rewrite first_start_snoc.
  - cbn [app breaks_justified] in *. now rewrite IH.
Qed.

Lemma breaks_justified_snoc (opts : srt_options.t) (gs : list phrase)
    (g g' : phrase) :
  breaks_justified opts (gs ++ [g]) = true ->
  break_reason opts g g' = true ->
  breaks_justified opts ((gs ++ [g]) ++ [g']) = true.
Proof.
  intros H Hb. induction gs as [|h gs IH].
  - cbn. now rewrite Hb.
  - destruct gs as [|k gs].
    + cbn [app breaks_justified] in *. rewrite Hb.
      apply andb_prop in H as [-> _]. reflexivity.
    + cbn [app breaks_justified] in *. apply andb_prop in H as [-> H].
      cbn [andb]. now apply IH.
Qed.

Lemma join_truthy (a : string) (l : list string) :
  pystr.truthy a = true -> pystr.truthy (pystr.join " " (a :: l)) = true.
Proof. destruct a; [discriminate|]. now destruct l. Qed.

(** One iteration on a valid word while a phrase is open. *)
Lemma srt_step_open (opts : srt_options.t) (i : Z) (speaker speaker' : string)
    (s e : float) (t : string) (st : srt_state) :
  pystr.truthy (phrase_text st) = true ->
  current_speaker_srt st = Some speaker ->
  (e <? s)%float = false ->
  (0 < i)%Z ->
  srt_step opts i (spoken speaker' (s, e, t)) st =
    if negb (String.eqb speaker speaker')
       || (gap_of opts <? s - last_word_end_time st)%float
       || match cap_of opts with
          | Some n => (n <=? words_in_phrase st)%Z
          | None => false
          end
    then
      mkState
        (f_srt st
           ++ entry_writes (get (srt_options.max_line_length opts) (Some 42%Z))
                (srt_sequence st) (phrase_start_time st) (phrase_end_time st)
                (current_speaker_srt st) (phrase_text st))
        (srt_sequence st + 1) (Some s) (Some e) t (Some speaker') 1 e
    else
      mkState (f_srt st) (srt_sequence st) (phrase_start_time st) (Some e)
        (phrase_text st ++ " " ++ t) (Some speaker) (words_in_phrase st + 1) e.
Proof.
  intros Hopen Hspk Hse Hi. unfold srt_step, gap_of, cap_of.
  cbn [spoken AlignedWord.start AlignedWord.end_ AlignedWord.text
       AlignedWord.speaker].
  rewrite Hse, Hspk, Hopen. cbn [opt_string_eqb andb].
  destruct (Z.gtb_spec i 0) as [_|]; [|lia]. cbn [andb].
  replace (match get (srt_options.max_words_per_entry opts) (Some 10%Z) with
           | Some n => (words_in_phrase st >=? n)%Z
           | None => false
           end)
    with (match get (srt_options.max_words_per_entry opts) (Some 10%Z) with
          | Some n => (n <=? words_in_phrase st)%Z
          | None => false
          end)
    by (destruct (get _ _) as [n|]; [apply eq_sym, Z.geb_leb|reflexivity]).
  destruct (String.eqb speaker speaker') eqn:Es; cbn [negb orb].
  - destruct (_ || _) eqn:Eb.
    + cbn [phrase_text pystr.truthy negb f_srt srt_sequence]. reflexivity.
    + rewrite Hopen. cbn [negb]. rewrite Hspk. reflexivity.
  - cbn [phrase_text pystr.truthy negb f_srt srt_sequence]. reflexivity.
Qed.

Lemma tagged_words_snoc (gs : list phrase) (g : phrase) :
  tagged_words (gs ++ [g]) = tagged_words gs ++ map (pair (fst g)) (snd g).
Proof.
  unfold tagged_words. rewrite flat_map_app. cbn [flat_map].
  now rewrite app_nil_r.
Qed.

Lemma srt_step_inv (opts : srt_options.t) (i : Z) (st : srt_state)
    (closed : list phrase) (speaker : string)
    (vs : list (float * float * string))
    (p : string * (float * float * string)) :
  srt_inv opts st closed speaker vs ->
  valid_word (snd p) = true -> (0 < i)%Z ->
  exists closed' speaker' vs',
    srt_inv opts (srt_step opts i (spoken_word p) st) closed' speaker' vs' /\
    tagged_words (closed' ++ [(speaker', vs')])
      = tagged_words (closed ++ [(speaker, vs)]) ++ [p].
Proof.
  destruct p as [spk [[s e] t]]. unfold spoken_word. cbn [fst snd valid_word].
  intros (Hf & Hq & Hst & Hen & Htx & Hopen & Hspk & Hn & Hlast & Hok & Hbr)
    Hv Hi.
  apply andb_prop in Hv as [Hse Ht]. apply negb_true_iff in Hse.
  rewrite forallb_app in Hok. apply andb_prop in Hok as [Hokc Hokv].
  cbn [forallb] in Hokv. rewrite andb_true_r in Hokv.
  unfold phrase_ok in Hokv. cbn [snd] in Hokv.
  apply andb_prop in Hokv as [Hokv Hcapv].
  apply andb_prop in Hokv as [Hne Hcont].
  assert (Hvs : vs <> []) by (destruct vs; [discriminate|congruence]).
  rewrite (srt_step_open opts i speaker spk s e t st Hopen Hspk Hse Hi).
  match goal with |- context [if ?c then _ else _] => destruct c eqn:Hc end.
  - exists (closed ++ [(speaker, vs)]), spk, [(s, e, t)].
    split; [|now rewrite (tagged_words_snoc (closed ++ _))].
    unfold srt_inv.
    cbn [f_srt srt_sequence phrase_start_time phrase_end_time phrase_text
         current_speaker_srt words_in_phrase last_word_end_time].
    split.
    { rewrite entries_from_snoc. cbn [fst snd].
      rewrite (entry_of_writes opts _ speaker vs Hvs).
      rewrite Hf, Hq, Hst, Hen, Hspk, Htx. reflexivity. }
    split. { rewrite Hq, length_app. cbn [List.length]. lia. }
    do 4 (split; [first [reflexivity|exact Ht]|]).
    split; [reflexivity|]. split; [reflexivity|]. split; [reflexivity|].
    split.
    + rewrite !forallb_app. cbn [forallb]. rewrite Hokc.
      unfold phrase_ok at 1. cbn [snd]. rewrite Hne, Hcont, Hcapv.
      unfold phrase_ok. cbn [snd contiguous no_long_gap List.length andb].
      destruct (cap_of opts) as [n|]; [|reflexivity].
      destruct (Z.leb_spec (Z.of_nat 1) (Z.max 1 n)); [reflexivity|lia].
    + apply breaks_justified_snoc; [exact Hbr|].
      unfold break_reason, full. cbn [fst snd first_start].
      rewrite Hlast. rewrite <- Hn. exact Hc.
  - apply orb_false_iff in Hc as [Hc Hfull].
    apply orb_false_iff in Hc as [Heq Hgap].
    apply negb_false_iff, String.eqb_eq in Heq. subst spk.
    exists closed, speaker, (vs ++ [(s, e, t)]).
    split.
    2:{ rewrite !tagged_words_snoc. cbn [fst snd]. rewrite map_app.
        now rewrite app_assoc. }
    unfold srt_inv.
    cbn [f_srt srt_sequence phrase_start_time phrase_end_time phrase_text
         current_speaker_srt words_in_phrase last_word_end_time].
    split; [exact Hf|]. split; [exact Hq|].
    split. { now rewrite first_start_snoc. }
    split. { now rewrite last_end_snoc. }
    split.
    { rewrite Htx. unfold texts. rewrite map_app. cbn [map snd].
      destruct vs as [|v vs]; [congruence|]. cbn [map].
      now rewrite join_snoc. }
    split. { now destruct (phrase_text st). }
    split; [reflexivity|].
    split. { rewrite Hn, length_app. cbn [List.length]. lia. }
    split. { now rewrite last_end_snoc. }
    split.
    + rewrite forallb_app. cbn [forallb]. rewrite Hokc, andb_true_r.
      unfold phrase_ok. cbn [snd].
      rewrite (contiguous_snoc _ vs s e t _ Hcont Hlast Hgap).
      replace (match vs ++ [(s, e, t)] with [] => false | _ :: _ => true end)
        with true by now destruct vs.
      cbn [andb]. destruct (cap_of opts) as [n|]; [|reflexivity].
      apply Z.leb_gt in Hfull. rewrite length_app. cbn [List.length].
      apply Z.leb_le. lia.
    + now rewrite breaks_justified_grow.
Qed.

Lemma srt_loop_inv (opts : srt_options.t)
    (ws : list (string * (float * float * string))) :
  forall (i : Z) (st : srt_state) (closed : list phrase) (speaker : string)
         (vs : list (float * float * string)),
  srt_inv opts st closed speaker vs ->
  forallb valid_word (map snd ws) = true -> (0 < i)%Z ->
  exists closed' speaker' vs',
    srt_inv opts (srt_loop opts i (map spoken_word ws) st) closed' speaker' vs' /\
    tagged_words (closed' ++ [(speaker', vs')])
      = tagged_words (closed ++ [(speaker, vs)]) ++ ws.
Proof.
  induction ws as [|p ws IH]; intros i st closed speaker vs Hinv Hv Hi.
  - exists closed, speaker, vs. now rewrite app_nil_r.
  - cbn [map forallb] in Hv. apply andb_prop in Hv as [Hp Hv].
    cbn [map srt_loop].
    destruct (srt_step_inv opts i st closed speaker vs p Hinv Hp Hi)
      as (c1 & s1 & v1 & Hinv1 & Hw1).
    destruct (IH (i + 1)%Z _ c1 s1 v1 Hinv1 Hv) as (c2 & s2 & v2 & Hinv2 & Hw2);
      [lia|].
    exists c2, s2, v2. split; [exact Hinv2|].
    rewrite Hw2, Hw1, <- app_assoc. reflexivity.
Qed.

Lemma save_to_srt_groups (opts : srt_options.t)
    (ws : list (string * (float * float * string))) :
  forallb valid_word (map snd ws) = true ->
  exists groups,
    save_to_srt (map spoken_word ws) opts = entries_from opts 1 groups /\
    tagged_words groups = ws /\
    forallb (phrase_ok opts) groups = true /\
    breaks_justified opts groups = true.
Proof.
  intro Hv. destruct ws as [|[spk [[s e] t]] ws].
  - exists []. now repeat split.
  - cbn [map forallb snd] in Hv. apply andb_prop in Hv as [Hp Hv].
    pose proof Hp as Hp'. apply andb_prop in Hp' as [Hse Ht].
    apply negb_true_iff in Hse.
    unfold save_to_srt. cbn [map srt_loop].
    change (spoken_word (spk, (s, e, t))) with (spoken spk (s, e, t)).
    rewrite srt_step_first by exact Hse.
    destruct (srt_loop_inv opts ws (0 + 1)%Z
                (mkState [] 1 (Some s) (Some e) t (Some spk) 1 e)
                [] spk [(s, e, t)])
      as (closed & speaker & vs & Hinv & Hw); [|exact Hv|lia|].
    { unfold srt_inv. cbn. repeat split; auto.
      unfold phrase_ok. cbn. destruct (cap_of opts) as [n|]; [|reflexivity].
      rewrite andb_true_r. apply Z.leb_le. lia. }
    destruct Hinv as (Hf & Hq & Hst & Hen & Htx & Hopen & Hspk & Hn & Hlast
                      & Hok & Hbr).
    rewrite Hopen. exists (closed ++ [(speaker, vs)]).
    split.
    { rewrite entries_from_snoc. cbn [fst snd].
      rewrite entry_of_writes, Hf, Hq, Hst, Hen, Hspk, Htx; [reflexivity|].
      rewrite forallb_app in Hok. apply andb_prop in Hok as [_ Hok].
      cbn [forallb phrase_ok snd] in Hok. now destruct vs. }
    split; [exact Hw|]. now split.
Qed.

(** X9.  When every well-formed word has a text that is not empty,
    [save_to_srt] writes the entries of a division of the well-formed words
    into phrases: the phrases taken in order hold exactly these words, each
    with its speaker; the entries are numbered 1, 2, 3, ... and each shows
    the start of its first word, the end of its last word and its texts
    joined by blanks; a phrase has one speaker, no long gap between two of
    its words and at most [max(1, max_words_per_entry)] words; and a new
    phrase begins only where the speaker changes, a long gap precedes the
    word, or the phrase before it is full. *)
Theorem subtitle_entries_partition_the_words (opts : srt_options.t)
    (aligned_words : list AlignedWord.t)
    (ws : list (string * (float * float * string))) :
  filter well_formed aligned_words = map spoken_word ws ->
  forallb valid_word (map snd ws) = true ->
  exists groups,
    save_to_srt aligned_words opts = entries_from opts 1 groups /\
    tagged_words groups = ws /\
    forallb (phrase_ok opts) groups = true /\
    breaks_justified opts groups = true.
Proof.
  intros Hwf Hv.
  destruct (save_to_srt_groups opts ws Hv) as (groups & E & H).
  exists groups. split; [|exact H]. rewrite <- E, <- Hwf.
  unfold save_to_srt.
  now rewrite (srt_loop_skips_malformed opts aligned_words 0 0 initial_state)
    by (try lia; discriminate).
Qed.

Lemma subtitle_entries_partition_the_words_witness :
  exists groups,
    save_to_srt
      (AlignedWord.mk None None (Some "lost"%string) None
         :: map spoken_word (map (pair "SPEAKER_1"%string) eleven_words))
      demo_options
      = entries_from demo_options 1 groups /\
    tagged_words groups = map (pair "SPEAKER_1"%string) eleven_words /\
    forallb (phrase_ok demo_options) groups = true /\
    breaks_justified demo_options groups = true.
Proof.
  apply (subtitle_entries_partition_the_words demo_options
           (AlignedWord.mk None None (Some "lost"%string) None
              :: map spoken_word (map (pair "SPEAKER_1"%string) eleven_words))
           (map (pair "SPEAKER_1"%string) eleven_words));
    reflexivity.
Defined.

(** *** Greedy wrapping *)

Lemma greedy_grow (n : Z) (gs : list (list string)) (g : list string)
    (w : string) :
  g <> [] -> greedy n (gs ++ [g]) -> greedy n (gs ++ [g ++ [w]]).
Proof.
  intro Hne. induction gs as [|h gs IH]; [auto|].
  destruct gs as [|k gs].
  - cbn [app greedy]. now destruct g.
  - cbn [app greedy] in *. intros [H1 H2]. split; [exact H1|now apply IH].
Qed.

Lemma greedy_snoc (n : Z) (gs : list (list string)) (g : list string)
    (w : string) :
  greedy n (gs ++ [g]) ->
  (n < pystr.len (line_of g) + pystr.len w + 1)%Z ->
  greedy n ((gs ++ [g]) ++ [[w]]).
Proof.
  intros H Hw. induction gs as [|h gs IH].
  - cbn. auto.
  - destruct gs as [|k gs].
    + cbn [app greedy] in *. cbn [hd]. tauto.
    + cbn [app greedy] in *. destruct H as [H1 H2]. split; [exact H1|].
      now apply IH.
Qed.

Lemma wrap_fold_greedy (n : Z) (words : list string) : forall st gs g,
  Forall (fun t => pystr.truthy t = true) words ->
  wrap_inv n st gs g ->
  exists gs' g',
    wrap_inv n (fold_left (wrap_step n) words st) gs' g' /\
    (List.concat gs' ++ g' = List.concat gs ++ g ++ words)%list.
Proof.
  induction words as [|w words IH]; intros st gs g Hw Hinv.
  - exists gs, g. now rewrite app_nil_r.
  - inversion Hw as [|? ? Hwt Hws]; subst. cbn [fold_left].
    destruct Hinv as (-> & Hgs & [[-> ->]|(Hgt & Hfit & Hgr)]).
    + destruct (IH (wrap_step n (map line_of [], line_of []) w) [] [w] Hws)
        as (gs' & g' & Hinv' & Hc).
      { split; [reflexivity|]. split; [constructor|]. right.
        split; [now constructor|]. split; [|exact I].
        split; [discriminate|now left]. }
      exists gs', g'. now split.
    + pose proof (line_of_truthy g (proj1 Hfit) Hgt) as Ht.
      unfold wrap_step at 2. rewrite Ht. cbn [negb].
      destruct (Z.leb_spec (pystr.len (line_of g) + pystr.len w + 1) n)
        as [Hle|Hover].
      * destruct (IH (map line_of gs, (line_of g ++ " " ++ w)%string)
                    gs (g ++ [w]) Hws)
          as (gs' & g' & Hinv' & Hc).
        { split; [now rewrite line_of_snoc by apply Hfit|].
          split; [exact Hgs|]. right.
          split; [apply Forall_app; split; [exact Hgt|now constructor]|].
          split.
          - split; [now destruct g|]. right.
            rewrite line_of_snoc by apply Hfit.
            unfold pystr.len in *. rewrite !length_append.
            cbn [String.length]. lia.
          - apply greedy_grow; [apply Hfit|exact Hgr]. }
        exists gs', g'. split; [exact Hinv'|].
        rewrite Hc. now rewrite <- !app_assoc.
      * destruct (IH (map line_of gs ++ [line_of g], w) (gs ++ [g]) [w] Hws)
          as (gs' & g' & Hinv' & Hc).
        { split; [now rewrite map_app|].
          split; [apply Forall_app; split; [exact Hgs|now constructor]|].
          right. split; [now constructor|].
          split; [split; [discriminate|now left]|].
          now apply greedy_snoc. }
        exists gs', g'. split; [exact Hinv'|].
        rewrite Hc, concat_app. cbn [List.concat].
        now rewrite app_nil_r, <- !app_assoc.
Qed.

Lemma wrap_lines_greedy (n : Z) (words : list string) :
  Forall (fun t => pystr.truthy t = true) words ->
  exists groups,
    wrap_lines n words = map line_of groups /\
    List.concat groups = words /\ Forall (fits n) groups /\ greedy n groups.
Proof.
  intro Hw. unfold wrap_lines.
  destruct (wrap_fold_greedy n words ([], EmptyString) [] [] Hw)
    as (gs & g & (E & Hgs & Ho) & Hc).
  { split; [reflexivity|]. split; [constructor|]. now left. }
  rewrite E. cbn [List.concat app] in Hc.
  destruct Ho as [[-> ->]|(Hgt & Hfit & Hgr)].
  - exists []. cbn in *. now repeat split.
  - rewrite (line_of_truthy g (proj1 Hfit) Hgt).
    exists (gs ++ [g]). rewrite map_app, concat_app. cbn [map List.concat].
    rewrite app_nil_r. split; [reflexivity|]. split; [exact Hc|].
    split; [|exact Hgr].
    apply Forall_app. split; [exact Hgs|now constructor].
Qed.

(** X10.  A text longer than the limit [n] (not zero) is wrapped greedily:
    the lines are the words of the text, in order, joined by single blanks;
    every line is at most [n] long or holds a single word; and no line
    could have taken the first word of the line after it, which with a
    blank before it would have passed [n]. *)
Theorem wrap_packs_lines_greedily (text : string) (n : Z) :
  n <> 0%Z -> (n < pystr.len text)%Z ->
  exists groups,
    _wrap_text_to_lines text (Some n) = pystr.join NL (map line_of groups) /\
    List.concat groups = pystr.split text /\
    Forall (fits n) groups /\ greedy n groups.
Proof.
  intros Hn Hlen. unfold _wrap_text_to_lines.
  destruct (Z.eqb_spec n 0) as [|_]; [contradiction|]. cbn [orb].
  destruct (Z.leb_spec (pystr.len text) n); [lia|].
  destruct (wrap_lines_greedy n (pystr.split text)) as (groups & E & Hg);
    [apply split_from_truthy|].
  exists groups. now rewrite E.
Qed.

Lemma wrap_packs_lines_greedily_witness :
  exists groups,
    _wrap_text_to_lines "[SPEAKER_1]: one two three four five" (Some 16%Z)
      = pystr.join NL (map line_of groups) /\
    List.concat groups
      = pystr.split "[SPEAKER_1]: one two three four five" /\
    Forall (fits 16) groups /\ greedy 16 groups.
Proof.
  apply (wrap_packs_lines_greedily "[SPEAKER_1]: one two three four five" 16);
    [discriminate|reflexivity].
Defined.

(** *** Splitting the wrapped text again *)

Lemma no_space_app (a b : string) :
  no_space (a ++ b) = no_space a && no_space b.
Proof.
  induction a as [|c a IH]; [reflexivity|].
  cbn [append no_space]. now rewrite IH, andb_assoc.
Qed.

Lemma split_from_tokens (s : string) : forall cur,
  no_space cur = true ->
  Forall token (pystr.split_from cur s).
Proof.
  induction s as [|c s IH]; intros cur Hcur; cbn [pystr.split_from].
  - destruct (pystr.truthy cur) eqn:E; repeat constructor; assumption.
  - destruct (pystr.isspace c) eqn:Ec.
    + destruct (pystr.truthy cur) eqn:E.
      * constructor; [now split|now apply IH].
      * now apply IH.
    + apply IH. rewrite no_space_app, Hcur. cbn [no_space]. now rewrite Ec.
Qed.

Lemma split_token_then_space (w : string) (c : ascii) (rest : string) :
  token w -> pystr.isspace c = true ->
  pystr.split (w ++ String c rest) = w :: pystr.split rest.
Proof.
  intros [Ht Hs] Hc. unfold pystr.split.
  rewrite split_from_app by exact Hs. cbn [append pystr.split_from].
  now rewrite Hc, Ht.
Qed.

Lemma split_token (w : string) : token w -> pystr.split w = [w].
Proof.
  intros [Ht Hs]. unfold pystr.split.
  rewrite <- (append_nil_r w) at 1. rewrite split_from_app by exact Hs.
  cbn [append pystr.split_from]. now rewrite Ht.
Qed.

Lemma split_line_then_space (g : list string) (c : ascii) (rest : string) :
  g <> [] -> Forall token g -> pystr.isspace c = true ->
  pystr.split (line_of g ++ String c rest) = (g ++ pystr.split rest)%list.
Proof.
  intros Hne Hg Hc. induction g as [|a g IH]; [congruence|].
  inversion Hg as [|? ? Ha Hg']; subst.
  destruct g as [|b g].
  - cbn [line_of pystr.join String.concat app].
    now apply split_token_then_space.
  - unfold line_of in *. rewrite join_cons, !append_assoc.
    change (" " ++ (pystr.join " " (b :: g) ++ String c rest))%string
      with (String " " (pystr.join " " (b :: g) ++ String c rest)).
    rewrite split_token_then_space by (auto; reflexivity).
    cbn [app]. f_equal. apply IH; [discriminate|exact Hg'].
Qed.

Lemma split_line (g : list string) :
  Forall token g -> pystr.split (line_of g) = g.
Proof.
  intro Hg. induction g as [|a g IH]; [reflexivity|].
  inversion Hg as [|? ? Ha Hg']; subst.
  destruct g as [|b g].
  - now apply split_token.
  - unfold line_of in *. rewrite join_cons.
    change (a ++ " " ++ pystr.join " " (b :: g))%string
      with (a ++ String " " (pystr.join " " (b :: g)))%string.
    rewrite split_token_then_space by (auto; reflexivity).
    f_equal. now apply IH.
Qed.

Lemma join_NL_cons (a b : string) (l : list string) :
  pystr.join NL (a :: b :: l)
    = (a ++ String "010" (pystr.join NL (b :: l)))%string.
Proof. reflexivity. Qed.

Lemma split_lines (groups : list (list string)) :
  Forall (fun g => g <> []) groups -> Forall (Forall token) groups ->
  pystr.split (pystr.join NL (map line_of groups)) = List.concat groups.
Proof.
  intros Hne Ht. induction groups as [|g groups IH]; [reflexivity|].
  inversion Hne as [|? ? Hg Hne']; subst.
  inversion Ht as [|? ? Htg Ht']; subst.
  destruct groups as [|h groups].
  - cbn [map pystr.join String.concat List.concat]. rewrite app_nil_r.
    now apply split_line.
  - cbn [map]. rewrite join_NL_cons.
    rewrite split_line_then_space by (auto; reflexivity).
    cbn [List.concat]. f_equal. now apply IH.
Qed.

Lemma Forall_concat {A : Type} (P : A -> Prop) (ls : list (list A)) :
  Forall P (List.concat ls) -> Forall (Forall P) ls.
Proof.
  induction ls as [|l ls IH]; [constructor|].
  cbn [List.concat]. intro H. apply Forall_app in H as [H1 H2].
  constructor; auto.
Qed.

(** X11.  Wrapping neither loses, adds, splits nor reorders a word: for
    every text and every limit, [split] of the wrapped text gives the words
    that [split] of the text gives. *)
Theorem wrapping_keeps_the_words (text : string) (max_line_length : option Z) :
  pystr.split (_wrap_text_to_lines text max_line_length) = pystr.split text.
Proof.
  unfold _wrap_text_to_lines. destruct max_line_length as [n|]; [|reflexivity].
  destruct ((n =? 0)%Z || (pystr.len text <=? n)%Z); [reflexivity|].
  destruct (wrap_lines_greedy n (pystr.split text))
    as (groups & E & Hc & Hf & _); [apply split_from_truthy|].
  rewrite E, split_lines; [exact Hc| |].
  - revert Hf. apply Forall_impl. now intros g [H _].
  - apply Forall_concat. rewrite Hc. now apply split_from_tokens.
Qed.

(** *** Negative times *)

Lemma trunc_neg (x : float) :
  (x <? 0)%float = true -> (pyfloat.trunc x <= 0)%Z.
Proof.
  rewrite ltb_spec, Prim2SF_zero. unfold pyfloat.trunc.
  destruct (Prim2SF x) as [| | |s m e]; try lia.
  destruct s; [|discriminate]. intros _.
  pose proof (Z.shiftl_nonneg (Z.pos m) e). lia.
Qed.

(** X12.  A negative finite number of seconds is not rejected: the hours
    are clamped to "00", while minutes and seconds are the remainders of
    the floor division of the integer part, so that they count backwards
    from 59 (-1.5 gives "00:59:59,000"); no minus sign is printed. *)
Theorem negative_time_wraps_around (x : float) :
  is_infinity x = false -> (x <? 0)%float = true ->
  let whole := pyfloat.trunc x in
  exists mm ss mmm,
    format_srt_time (PyFloat x)
      = Some ("00:" ++ mm ++ ":" ++ ss ++ "," ++ mmm)%string /\
    reads_as mm (whole / 60 mod 60) /\ String.length mm = 2 /\
    reads_as ss (whole mod 60) /\ String.length ss = 2 /\
    reads_as mmm (millis (PyFloat x)) /\ 3 <= String.length mmm.
Proof.
  intros Hinf Hneg whole. pose proof (trunc_neg x Hneg) as Hw.
  fold whole in Hw.
  unfold format_srt_time, format_srt_time_float.
  rewrite (ltb_is_nan_l _ _ Hneg), Hinf. cbn [orb].
  change (pyfloat.of_int 1000) with 1000%float.
  fold whole. fold (millis (PyFloat x)). unfold hms.
  assert (H1 : (whole / 3600 <= 0)%Z)
    by (apply Z.div_le_upper_bound; lia).
  assert (H2 : (0 <= whole / 60 mod 60 < 60)%Z) by (apply Z.mod_pos_bound; lia).
  assert (H3 : (0 <= whole mod 60 < 60)%Z) by (apply Z.mod_pos_bound; lia).
  rewrite (Z.max_l 0 (whole / 3600)) by lia. rewrite !Z.max_r by lia.
  destruct (fmt0_reads 2 (whole / 60 mod 60)) as [? _]; [lia|].
  destruct (fmt0_reads 2 (whole mod 60)) as [? _]; [lia|].
  destruct (fmt0_reads 3 (millis (PyFloat x))) as [? ?];
    [unfold millis; lia|].
  do 3 eexists. split; [reflexivity|].
  repeat split; auto; apply fmt0_2_width; lia.
Qed.

Lemma negative_time_wraps_around_witness :
  let whole := pyfloat.trunc (-1.5) in
  exists mm ss mmm,
    format_srt_time (PyFloat (-1.5))
      = Some ("00:" ++ mm ++ ":" ++ ss ++ "," ++ mmm)%string /\
    reads_as mm (whole / 60 mod 60) /\ String.length mm = 2 /\
    reads_as ss (whole mod 60) /\ String.length ss = 2 /\
    reads_as mmm (millis (PyFloat (-1.5))) /\ 3 <= String.length mmm.
Proof.
  apply (negative_time_wraps_around (-1.5)%float); reflexivity.
Defined.

(** *** From the diarization to the transcript *)

(** X13.  In [main], a pool failure during the alignment is not noticed:
    whatever the exception, the transcript is written with no line at all
    and the run is marked successful. *)
Theorem failed_alignment_gives_an_empty_transcript (cfg : config.t)
    (e : pool_exception) (segments : list Segment.t) (turns : list Turn.t) :
  main_steps_7_8 cfg (Raises e) segments turns = Some ([], true).
Proof.
  unfold main_steps_7_8, align_words_with_speakers. rewrite align_unfold.
  now destruct (prepare_words segments).
Qed.

Lemma txt_words_aligned (turns : list Turn.t) (ws : list Word.t) : forall k,
  map snd
    (txt_words
       (map as_aligned_word
          (map (fun w => _find_speaker_for_word w turns)
             (number_from k (filter nonblank ws)))))
  = map (fun w => pystr.strip (Word.word w)) (filter nonblank ws).
Proof.
  induction ws as [|w ws IH]; intro k; [reflexivity|].
  cbn [filter]. destruct (nonblank w) eqn:Hw; [|apply IH].
  cbn [number_from map]. unfold txt_words in *. cbn [flat_map].
  rewrite map_app, IH. unfold txt_word, as_aligned_word at 1.
  cbn [AlignedWord.text AlignedWord.speaker].
  destruct (find_speaker_keeps
              (WordInfo.mk (Word.start w) (Word.end_ w)
                 (pystr.strip (Word.word w)) k None) turns)
    as (_ & _ & -> & _).
  cbn [WordInfo.text]. unfold nonblank in Hw. rewrite Hw. reflexivity.
Qed.

Lemma map_snd_paragraph_words (ps : list (string * list string)) :
  map snd (paragraph_words ps) = List.concat (map snd ps).
Proof.
  induction ps as [|[s ts] ps IH]; [reflexivity|].
  unfold paragraph_words in *. cbn [flat_map map List.concat fst snd].
  rewrite map_app, IH, map_map. cbn [snd]. now rewrite map_id.
Qed.

(** X14.  In [main], when the pool completes, the transcript consists of
    paragraphs whose texts, taken in order, are exactly the trimmed texts
    of the non-blank words of the transcription, in the order of the
    input; neighbouring paragraphs have different speakers, and the run is
    marked successful. *)
Theorem transcript_holds_every_word_in_order (cfg : config.t)
    (order : list nat) (segments : list Segment.t) (turns : list Turn.t) :
  complete_run (prepare_words segments) (chunksize_of cfg segments) order ->
  exists paragraphs,
    main_steps_7_8 cfg (Completes order) segments turns
      = Some (map paragraph paragraphs, true) /\
    List.concat (map snd paragraphs)
      = map (fun w => pystr.strip (Word.word w))
          (filter nonblank (words_of segments)) /\
    changes (map fst paragraphs).
Proof.
  intro Hrun.
  unfold main_steps_7_8, align_words_with_speakers,
    save_transcript_with_speakers.
  rewrite align_completes by exact Hrun.
  unfold save_to_txt.
  destruct (txt_flush _ _
              (txt_loop_inv
                 (map as_aligned_word
                    (map (fun w => _find_speaker_for_word w (sort_by_start turns))
                       (prepare_words segments)))
                 (mkTxt [] None EmptyString) [] (or_introl (conj eq_refl eq_refl))))
    as (ps & E & Hw & _ & Hch).
  exists ps. split; [now rewrite E|]. split; [|exact Hch].
  cbn [app] in Hw.
  rewrite <- map_snd_paragraph_words, Hw, prepare_words_spec.
  apply txt_words_aligned.
Qed.

Lemma transcript_holds_every_word_in_order_witness :
  exists paragraphs,
    main_steps_7_8 demo_cfg (Completes [1; 0]) demo_segments demo_turns
      = Some (map paragraph paragraphs, true) /\
    List.concat (map snd paragraphs)
      = map (fun w => pystr.strip (Word.word w))
          (filter nonblank (words_of demo_segments)) /\
    changes (map fst paragraphs).
Proof.
  apply (transcript_holds_every_word_in_order demo_cfg [1; 0] demo_segments
           demo_turns).
  vm_compute. apply perm_swap.
Defined.

(** X15.  [extract_speaker_turns] returns the tracks of the diarization as
    turns in ascending order of start (when no start is NaN), so that the
    alignment, which sorts the list it is given in place, leaves the list
    that [main] passes it as it is. *)
Theorem extracted_turns_stay_in_place (cfg : config.t) (pool : pool_run)
    (segments : list Segment.t) (tracks : list (float * float * string)) :
  Forall (fun track => is_nan (fst (fst track)) = false) tracks ->
  let speaker_turns := extract_speaker_turns (Tracks tracks) in
  Permutation (map turn_of tracks) speaker_turns /\
  StronglySorted start_le speaker_turns /\
  fst (align_speech_and_speakers cfg pool segments speaker_turns)
    = speaker_turns.
Proof.
  intros Hnan speaker_turns. subst speaker_turns. cbn [extract_speaker_turns].
  assert (Hn : Forall start_not_nan (map turn_of tracks)).
  { apply Forall_map. revert Hnan. apply Forall_impl.
    now intros [[s e] l]. }
  assert (Hs : StronglySorted start_ordered (sort_by_start (map turn_of tracks)))
    by now apply sort_by_start_sorted.
  split; [apply sort_by_start_perm|]. split.
  - apply sorted_start_le; [|exact Hs].
    now apply (Permutation_Forall (sort_by_start_perm _)).
  - rewrite align_unfold. destruct (prepare_words segments); [reflexivity|].
    cbn [fst]. now apply sort_by_start_of_sorted.
Qed.

Lemma extracted_turns_stay_in_place_witness :
  let speaker_turns :=
    extract_speaker_turns
      (Tracks demo_tracks) in
  Permutation
    (map turn_of demo_tracks)
    speaker_turns /\
  StronglySorted start_le speaker_turns /\
  fst (align_speech_and_speakers demo_cfg (Completes [1; 0]) demo_segments
         speaker_turns)
    = speaker_turns.
Proof.
  apply (extracted_turns_stay_in_place demo_cfg (Completes [1; 0])
           demo_segments
           demo_tracks).
  repeat constructor.
Defined.
